(** * carla_ros_bridge/bridge.py: the CarlaRosBridge synchronisation core

    A shallow embedding of [CarlaRosBridge] (bridge.py): the actor factory
    [create_actor], the reconciliation pass [update_actors], the update pass
    [update] and the two tick callbacks.  The bridge object is a record, its
    methods are computations in a state / exception / event-trace monad.

    Conventions of the model:
    - [self.actors] is a dictionary; it is an association list with unique
      keys, visited in insertion order (the order of Python 3.7 and later;
      Python 2 leaves it unspecified).
    - the collaborators (entity classes, binding, simulator) are opaque: a
      call to one of them is an event of the trace, and an oracle says which
      calls raise.
    - one thread of control is followed at a time.  A lock is a boolean of
      the bridge; a blocking [acquire] of a held lock gives the outcome
      [Blocked] (the call cannot return before another thread releases).
    - [elapsed_seconds] is a float that the bridge only stores and compares;
      the model takes rationals.
    - the file runs under Python 2 or Python 3; where the two differ
      ([dict.keys()]) the interpreter is a parameter. *)

From Stdlib Require Import ZArith QArith List Ascii String Bool Lia.
Import ListNotations.

Local Open Scope string_scope.
Local Open Scope list_scope.
Local Open Scope Z_scope.

(** ** Data model *)

(** A raw simulator handle ([carla.Actor]): the fields the bridge reads.
    The parent is itself a handle; handles are finite, so parent chains end. *)
#[warnings="-register-all"]
Inductive carla_actor : Type :=
  CarlaActor {
    id : Z;
    type_id : string;
    attributes : list (string * string);
    parent : option carla_actor
  }.

(** The Python classes [create_actor] instantiates. *)
Inductive actor_class : Type :=
| TrafficLight | Traffic
| EgoVehicle | Vehicle
| RgbCamera | DepthCamera | SemanticSegmentationCamera | Camera
| Lidar | Gnss | CollisionSensor | LaneInvasionSensor | Sensor
| Spectator
| Actor.

(** An entity: [Cls(carla_actor, parent, binding)].  Of the parent object the
    entity exposes its id ([get_parent_id()]). *)
Record actor : Type :=
  mkActor {
    class_name : actor_class;
    carla_handle : carla_actor;
    parent_id : option Z
  }.

Definition get_id (a : actor) : Z := id (carla_handle a).

Definition new_actor (cls : actor_class) (h : carla_actor) (p : option actor) : actor :=
  {| class_name := cls; carla_handle := h; parent_id := option_map get_id p |}.

(** Entities without a simulator object.  [ObjectSensor] is given the
    bridge's own [self.actors] (an alias of the registry, not a copy), so the
    model keeps no list inside it. *)
Inductive pseudo_actor : Type :=
| Map (topic_prefix : string)
| ObjectSensor (parent : option actor) (topic_prefix : string) (filtered_id : option Z).

(** Python exceptions: the class and the message.  [except RuntimeError]
    catches instances of the class and of every class derived from it.  Of
    the built-in classes named here those are [NotImplementedError] and
    [RecursionError]; any other class, built-in or user-defined, is given by
    its name together with whether it derives from [RuntimeError].  The name
    is what the log prints; whether the handler catches the exception depends
    on the derivation alone. *)
Inductive exn_class : Type :=
| RuntimeError | NotImplementedError | RecursionError
| KeyError | TypeError | ValueError | AttributeError
| OtherException (name : string) (derives_RuntimeError : bool).

Definition issubclass_RuntimeError (c : exn_class) : bool :=
  match c with
  | RuntimeError | NotImplementedError | RecursionError => true
  | OtherException _ derives => derives
  | KeyError | TypeError | ValueError | AttributeError => false
  end.

Record exn : Type := Exn { exn_type : exn_class; exn_msg : string }.

Definition isinstance_RuntimeError (e : exn) : bool :=
  issubclass_RuntimeError (exn_type e).

(** *** The registry dictionary *)

Definition dict : Type := list (Z * actor).

Definition dict_keys (d : dict) : list Z := map fst d.

Fixpoint dict_get (k : Z) (d : dict) : option actor :=
  match d with
  | [] => None
  | (k', v) :: rest => if k =? k' then Some v else dict_get k rest
  end.

Definition dict_in (k : Z) (d : dict) : bool :=
  match dict_get k d with Some _ => true | None => false end.

(** [d[k] = v]: an existing key keeps its place, a new key goes last. *)
Fixpoint dict_set (k : Z) (v : actor) (d : dict) : dict :=
  match d with
  | [] => [(k, v)]
  | (k', v') :: rest =>
      if k =? k' then (k', v) :: rest else (k', v') :: dict_set k v rest
  end.

Fixpoint dict_del (k : Z) (d : dict) : dict :=
  match d with
  | [] => []
  | (k', v') :: rest => if k =? k' then rest else (k', v') :: dict_del k rest
  end.

Fixpoint mem (k : Z) (l : list Z) : bool :=
  match l with
  | [] => false
  | x :: rest => (k =? x) || mem k rest
  end.

(** [attributes.get(key)] *)
Fixpoint attr_get (key : string) (attrs : list (string * string)) : option string :=
  match attrs with
  | [] => None
  | (k, v) :: rest => if String.eqb key k then Some v else attr_get key rest
  end.

(** [x in names], where [x] may be [None] *)
Definition role_in (x : option string) (names : list string) : bool :=
  match x with
  | None => false
  | Some r => existsb (String.eqb r) names
  end.

Definition startswith (s p : string) : bool := String.prefix p s.

(** *** The bridge object *)

Inductive lock_name : Type := update_lock | update_child_actors_lock.

(** The binding, as far as the bridge reads it: the shutdown flag and
    [get_parameters()['ego_vehicle']['role_name']]. *)
Record binding : Type :=
  mkBinding {
    is_shutdown : bool;
    ego_vehicle_role_name : list string
  }.

Record bridge : Type :=
  mkBridge {
    actors : dict;
    pseudo_actors : list pseudo_actor;
    timestamp_last_run : Q;
    update_locked : bool;
    update_child_actors_locked : bool;
    get_binding : binding
  }.

Definition locked (l : lock_name) (s : bridge) : bool :=
  match l with
  | update_lock => update_locked s
  | update_child_actors_lock => update_child_actors_locked s
  end.

Definition set_locked (l : lock_name) (b : bool) (s : bridge) : bridge :=
  match l with
  | update_lock =>
      mkBridge (actors s) (pseudo_actors s) (timestamp_last_run s)
               b (update_child_actors_locked s) (get_binding s)
  | update_child_actors_lock =>
      mkBridge (actors s) (pseudo_actors s) (timestamp_last_run s)
               (update_locked s) b (get_binding s)
  end.

Definition set_actors (d : dict) (s : bridge) : bridge :=
  mkBridge d (pseudo_actors s) (timestamp_last_run s)
           (update_locked s) (update_child_actors_locked s) (get_binding s).

Definition set_pseudo_actors (l : list pseudo_actor) (s : bridge) : bridge :=
  mkBridge (actors s) l (timestamp_last_run s)
           (update_locked s) (update_child_actors_locked s) (get_binding s).

Definition set_timestamp_last_run (t : Q) (s : bridge) : bridge :=
  mkBridge (actors s) (pseudo_actors s) t
           (update_locked s) (update_child_actors_locked s) (get_binding s).

Definition set_shutdown (s : bridge) : bridge :=
  mkBridge (actors s) (pseudo_actors s) (timestamp_last_run s)
           (update_locked s) (update_child_actors_locked s)
           (mkBinding true (ego_vehicle_role_name (get_binding s))).

(** ** Events *)

(** The three [logwarn] messages of the file, with the values they format. *)
Inductive warning : Type :=
| RemoveActor (actor_id : Z)
| CreatedActor (cls : actor_class) (actor_id : Z) (parent : option Z)
               (type : string) (attrs : list (string * string))
| UpdateActorFailed (cls : actor_class) (actor_id : Z) (e : exn).

(** Calls into collaborators that may raise. *)
Inductive call : Type :=
| update_clock (carla_timestamp : Q)
| send_msgs
| pseudo_update (a : pseudo_actor)
| actor_update (a : actor).

Inductive event : Type :=
| EvAcquire (l : lock_name)
| EvRelease (l : lock_name)
| EvLogwarn (w : warning)
| EvLoginfo (msg : string)
| EvCall (c : call)
| EvSetitem (actor_id : Z)
| EvDelitem (actor_id : Z)
| EvAppendPseudo (a : pseudo_actor)
| EvSleep
| EvSignalShutdown.

(** ** The monad *)

Inductive result (A : Type) : Type :=
| Ok (a : A)
| Raise (e : exn)
| Blocked.

Arguments Ok {A} a.
Arguments Raise {A} e.
Arguments Blocked {A}.

Definition M (A : Type) : Type := bridge -> result A * bridge * list event.

Definition ret {A : Type} (a : A) : M A := fun s => (Ok a, s, []).

Definition bind {A B : Type} (m : M A) (k : A -> M B) : M B :=
  fun s =>
    match m s with
    | (Ok a, s1, t1) => let '(r, s2, t2) := k a s1 in (r, s2, t1 ++ t2)
    | (Raise e, s1, t1) => (Raise e, s1, t1)
    | (Blocked, s1, t1) => (Blocked, s1, t1)
    end.

Notation "x <- m ;; k" := (bind m (fun x => k))
  (at level 61, m at next level, right associativity).
Notation "m ;;; k" := (bind m (fun _ => k))
  (at level 61, right associativity).

Definition get : M bridge := fun s => (Ok s, s, []).
Definition modify (f : bridge -> bridge) : M unit := fun s => (Ok tt, f s, []).
Definition emit (e : event) : M unit := fun s => (Ok tt, s, [e]).
Definition raise {A : Type} (e : exn) : M A := fun s => (Raise e, s, []).

Definition logwarn (w : warning) : M unit := emit (EvLogwarn w).
Definition loginfo (msg : string) : M unit := emit (EvLoginfo msg).

(** [lock.acquire()] *)
Definition acquire (l : lock_name) : M unit :=
  fun s =>
    if locked l s then (Blocked, s, [])
    else (Ok tt, set_locked l true s, [EvAcquire l]).

(** [lock.acquire(False)] *)
Definition try_acquire (l : lock_name) : M bool :=
  fun s =>
    if locked l s then (Ok false, s, [])
    else (Ok true, set_locked l true s, [EvAcquire l]).

(** [lock.release()]; releasing a free lock is an error in Python. *)
Definition release (l : lock_name) : M unit :=
  fun s =>
    if locked l s then (Ok tt, set_locked l false s, [EvRelease l])
    else (Raise (Exn RuntimeError "release unlocked lock"), s, []).

(** [with lock: body]: the lock is released when the body returns or raises. *)
Definition with_lock {A : Type} (l : lock_name) (body : M A) : M A :=
  fun s =>
    match acquire l s with
    | (Ok _, s1, t1) =>
        match body s1 with
        | (Blocked, s2, t2) => (Blocked, s2, t1 ++ t2)
        | (r, s2, t2) =>
            match release l s2 with
            | (Ok _, s3, t3) => (r, s3, t1 ++ t2 ++ t3)
            | (Raise e, s3, t3) => (Raise e, s3, t1 ++ t2 ++ t3)
            | (Blocked, s3, t3) => (Blocked, s3, t1 ++ t2 ++ t3)
            end
        end
    | (Raise e, s1, t1) => (Raise e, s1, t1)
    | (Blocked, s1, t1) => (Blocked, s1, t1)
    end.

(** [for x in l: body(x)] *)
Fixpoint for_each {A : Type} (l : list A) (body : A -> M unit) : M unit :=
  match l with
  | [] => ret tt
  | x :: rest => body x ;;; for_each rest body
  end.

(** [self.actors[k] = v] and [del self.actors[k]] *)
Definition setitem (k : Z) (v : actor) : M unit :=
  emit (EvSetitem k) ;;; modify (fun s => set_actors (dict_set k v (actors s)) s).

Definition delitem (k : Z) : M unit :=
  s <- get ;;
  if dict_in k (actors s)
  then emit (EvDelitem k) ;;; modify (fun s => set_actors (dict_del k (actors s)) s)
  else raise (Exn KeyError "key").

Definition append_pseudo (a : pseudo_actor) : M unit :=
  emit (EvAppendPseudo a) ;;;
  modify (fun s => set_pseudo_actors (pseudo_actors s ++ [a]) s).

(** ** create_actor (bridge.py, lines 157-218) *)

(** The [sensor] branch, lines 187-205: four [if] statements in a row, the
    [else] belongs to the last one. *)
Definition sensor_class (t : string) : actor_class :=
  let a : option actor_class := None in
  let a :=
    if startswith t "sensor.camera" then
      if startswith t "sensor.camera.rgb" then Some RgbCamera
      else if startswith t "sensor.camera.depth" then Some DepthCamera
      else if startswith t "sensor.camera.semantic_segmentation"
           then Some SemanticSegmentationCamera
      else Some Camera
    else a in
  let a := if startswith t "sensor.lidar" then Some Lidar else a in
  let a := if startswith t "sensor.other.gnss" then Some Gnss else a in
  let a := if startswith t "sensor.other.collision" then Some CollisionSensor else a in
  let a := if startswith t "sensor.other.lane_invasion"
           then LaneInvasionSensor else Sensor in
  a.

(** Lines 168-209: the class is chosen by prefix tests on the type tag; an
    ego vehicle also gets its own object-list publisher. *)
Definition construct (carla_actor : carla_actor) (parent_ : option actor) : M actor :=
  s <- get ;;
  let t := type_id carla_actor in
  if startswith t "traffic" then
    if String.eqb t "traffic.traffic_light"
    then ret (new_actor TrafficLight carla_actor parent_)
    else ret (new_actor Traffic carla_actor parent_)
  else if startswith t "vehicle" then
    if role_in (attr_get "role_name" (attributes carla_actor))
               (ego_vehicle_role_name (get_binding s))
    then
      let a := new_actor EgoVehicle carla_actor parent_ in
      with_lock update_lock
        (append_pseudo (ObjectSensor (Some a) "objects" (Some (id carla_actor)))) ;;;
      ret a
    else ret (new_actor Vehicle carla_actor parent_)
  else if startswith t "sensor" then
    ret (new_actor (sensor_class t) carla_actor parent_)
  else if startswith t "spectator" then
    ret (new_actor Spectator carla_actor parent_)
  else ret (new_actor Actor carla_actor parent_).

(** Lines 211-218: log, then store the entity under the update lock. *)
Definition register (carla_actor : carla_actor) (actor_ : actor) : M actor :=
  logwarn (CreatedActor (class_name actor_) (get_id actor_) (parent_id actor_)
                        (type_id carla_actor) (attributes carla_actor)) ;;;
  with_lock update_lock (setitem (id carla_actor) actor_) ;;;
  ret actor_.

Fixpoint create_actor (carla_actor : carla_actor) {struct carla_actor} : M actor :=
  parent_ <-
    match parent carla_actor with
    | Some p =>
        s <- get ;;
        match dict_get (id p) (actors s) with
        | Some a => ret (Some a)
        | None => a <- create_actor p ;; ret (Some a)
        end
    | None => ret None
    end ;;
  actor_ <- construct carla_actor parent_ ;;
  register carla_actor actor_.

(** ** update_actors (lines 132-155) *)

(** [self.actors.keys()] is a list in Python 2 and a view of the live
    dictionary in Python 3; an iterator over the view raises once the size
    of the dictionary has changed.  The file does not say which interpreter
    runs it, so the removal loop takes the interpreter as a parameter.  The
    keys are visited in insertion order. *)
Inductive python : Type := Python2 | Python3.

Definition keys_is_view (py : python) : bool :=
  match py with Python2 => false | Python3 => true end.

Definition dict_changed_size : exn :=
  Exn RuntimeError "dictionary changed size during iteration".

(** [if id_to_delete:] *)
Definition truthy (x : option Z) : bool :=
  match x with
  | None => false
  | Some n => negb (n =? 0)
  end.

(** Lines 148-155.  [size_changed] records a [del] since the iterator was made. *)
Fixpoint remove_loop (py : python) (carla_actor_ids keys : list Z)
         (size_changed : bool) {struct keys} : M unit :=
  if keys_is_view py && size_changed then raise dict_changed_size
  else
    match keys with
    | [] => ret tt
    | actor_id :: rest =>
        let id_to_delete :=
          if negb (mem actor_id carla_actor_ids) then Some actor_id else None in
        if truthy id_to_delete then
          logwarn (RemoveActor actor_id) ;;;
          delitem actor_id ;;;
          remove_loop py carla_actor_ids rest true
        else remove_loop py carla_actor_ids rest size_changed
    end.

(** Lines 138-140. *)
Definition add_new_actors (carla_actors : list carla_actor) : M unit :=
  for_each carla_actors (fun actor_ =>
    s <- get ;;
    if negb (mem (id actor_) (dict_keys (actors s)))
    then create_actor actor_ ;;; ret tt
    else ret tt).

(** [carla_actors] is what [self.carla_world.get_actors()] returns. *)
Definition update_actors (py : python) (carla_actors : list carla_actor) : M unit :=
  add_new_actors carla_actors ;;;
  let carla_actor_ids := map id carla_actors in
  s <- get ;;
  remove_loop py carla_actor_ids (dict_keys (actors s)) false.

(** ** update and the tick callbacks *)

Definition Qltb (x y : Q) : bool := (Qnum x * QDen y <? Qnum y * QDen x)%Z.

Section Collaborators.

(** Which collaborator calls raise, and what. *)
Variable raises : call -> option exn.

Definition invoke (c : call) : M unit :=
  fun s =>
    match raises c with
    | None => (Ok tt, s, [EvCall c])
    | Some e => (Raise e, s, [EvCall c])
    end.

(** [try: body  except RuntimeError as e: handler(e)] *)
Definition try_except_RuntimeError (body : M unit) (handler : exn -> M unit) : M unit :=
  fun s =>
    match body s with
    | (Raise e, s1, t1) =>
        if isinstance_RuntimeError e
        then let '(r, s2, t2) := handler e s1 in (r, s2, t1 ++ t2)
        else (Raise e, s1, t1)
    | other => other
    end.

(** Lines 259-264, the body of the second loop for one key. *)
Definition update_one (actor_id : Z) : M unit :=
  try_except_RuntimeError
    (s <- get ;;
     match dict_get actor_id (actors s) with
     | Some a => invoke (actor_update a)
     | None => raise (Exn KeyError "actor_id")
     end)
    (fun e =>
       s <- get ;;
       match dict_get actor_id (actors s) with
       | Some a => logwarn (UpdateActorFailed (class_name a) actor_id e)
       | None => raise (Exn KeyError "actor_id")
       end).

(** Lines 247-264. *)
Definition update : M unit :=
  s <- get ;;
  for_each (pseudo_actors s) (fun a => invoke (pseudo_update a)) ;;;
  s <- get ;;
  for_each (dict_keys (actors s)) update_one.

(** Lines 89-110. *)
Definition _carla_time_tick (carla_timestamp : Q) : M unit :=
  s <- get ;;
  if negb (is_shutdown (get_binding s)) then
    got <- try_acquire update_lock ;;
    if got then
      s <- get ;;
      (if Qltb (timestamp_last_run s) carla_timestamp then
         modify (set_timestamp_last_run carla_timestamp) ;;;
         invoke (update_clock carla_timestamp) ;;;
         update ;;;
         invoke send_msgs
       else ret tt) ;;;
      release update_lock
    else ret tt
  else ret tt.

End Collaborators.

(** Lines 112-130. *)
Definition _carla_update_child_actors (py : python) (carla_actors : list carla_actor) : M unit :=
  s <- get ;;
  if negb (is_shutdown (get_binding s)) then
    got <- try_acquire update_child_actors_lock ;;
    if got then
      update_actors py carla_actors ;;;
      emit EvSleep ;;;
      release update_child_actors_lock
    else ret tt
  else ret tt.

(** Lines 74-87. *)
Definition destroy : M unit :=
  acquire update_child_actors_lock ;;;
  acquire update_lock ;;;
  emit EvSignalShutdown ;;;
  modify set_shutdown ;;;
  loginfo "Exiting Bridge".

(** Lines 231-239: the handler [run] registers with the binding. *)
Definition on_shutdown : M unit :=
  loginfo "Shutdown requested" ;;;
  destroy.

(** [__init__]: the fresh bridge.  The two [on_tick] registrations hand
    [_carla_update_child_actors] and [_carla_time_tick] to the simulator. *)
Definition init (b : binding) : bridge :=
  {| actors := [];
     pseudo_actors := [Map "/map"; ObjectSensor None "objects" None];
     timestamp_last_run := 0%Q;
     update_locked := false;
     update_child_actors_locked := false;
     get_binding := b |}.

(** * Vocabulary of the statements *)

(** The class lines 168-209 end up with, as a function of the tag, the
    role name and the configured ego role names. *)
Definition variant_of (names : list string) (h : carla_actor) : actor_class :=
  let t := type_id h in
  if startswith t "traffic" then
    if String.eqb t "traffic.traffic_light" then TrafficLight else Traffic
  else if startswith t "vehicle" then
    if role_in (attr_get "role_name" (attributes h)) names then EgoVehicle else Vehicle
  else if startswith t "sensor" then sensor_class t
  else if startswith t "spectator" then Spectator
  else Actor.

Definition is_ego (names : list string) (h : carla_actor) : bool :=
  negb (startswith (type_id h) "traffic") && startswith (type_id h) "vehicle"
  && role_in (attr_get "role_name" (attributes h)) names.

Definition publisher_of (h : carla_actor) (a : actor) : pseudo_actor :=
  ObjectSensor (Some a) "objects" (Some (id h)).

Definition ego_names (s : bridge) : list string :=
  ego_vehicle_role_name (get_binding s).

Definition created_warning (h : carla_actor) (a : actor) : event :=
  EvLogwarn (CreatedActor (class_name a) (get_id a) (parent_id a)
                          (type_id h) (attributes h)).

(** [construct] followed by [register], from a state with the update lock
    free: the entity, the state and the events. *)
Definition finish (h : carla_actor) (p : option actor) (s : bridge)
  : actor * bridge * list event :=
  let a := new_actor (variant_of (ego_names s) h) h p in
  if is_ego (ego_names s) h then
    (a,
     set_actors (dict_set (id h) a (actors s))
                (set_pseudo_actors (pseudo_actors s ++ [publisher_of h a]) s),
     [EvAcquire update_lock; EvAppendPseudo (publisher_of h a); EvRelease update_lock;
      created_warning h a;
      EvAcquire update_lock; EvSetitem (id h); EvRelease update_lock])
  else
    (a,
     set_actors (dict_set (id h) a (actors s)) s,
     [created_warning h a;
      EvAcquire update_lock; EvSetitem (id h); EvRelease update_lock]).

(** The factory as a big-step relation: [creates h s a s' t] when
    [create_actor h] started in [s] returns [a] in state [s'] after the
    events [t]. *)
Inductive creates : carla_actor -> bridge -> actor -> bridge -> list event -> Prop :=
| creates_orphan h s a s' t :
    parent h = None ->
    finish h None s = (a, s', t) ->
    creates h s a s' t
| creates_reuse h p pa s a s' t :
    parent h = Some p ->
    dict_get (id p) (actors s) = Some pa ->
    finish h (Some pa) s = (a, s', t) ->
    creates h s a s' t
| creates_parent h p pa s s1 t1 a s' t :
    parent h = Some p ->
    dict_get (id p) (actors s) = None ->
    creates p s pa s1 t1 ->
    finish h (Some pa) s1 = (a, s', t) ->
    creates h s a s' (t1 ++ t).

(** [carla_actor.parent] is [None], or is a handle whose id is a key of the
    registry: the cases in which [create_actor] does not recurse. *)
Definition parent_resolved (h : carla_actor) (s : bridge) : bool :=
  match parent h with
  | None => true
  | Some p => dict_in (id p) (actors s)
  end.

(** What the pass emits for one registry entry that returns or raises a
    [RuntimeError]. *)
Definition entity_events (raises : call -> option exn) (entry : Z * actor)
  : list event :=
  let '(k, a) := entry in
  EvCall (actor_update a) ::
  match raises (actor_update a) with
  | Some e => [EvLogwarn (UpdateActorFailed (class_name a) k e)]
  | None => []
  end.

(** The entity's [update()] returns, or raises an instance of
    [RuntimeError]. *)
Definition recoverable (raises : call -> option exn) (a : actor) : Prop :=
  forall e, raises (actor_update a) = Some e -> isinstance_RuntimeError e = true.

Definition pseudo_events (l : list pseudo_actor) : list event :=
  map (fun p => EvCall (pseudo_update p)) l.

(** [emits P m]: from every state, all the events of [m] satisfy [P]. *)
Definition emits {A : Type} (P : event -> Prop) (m : M A) : Prop :=
  forall s, Forall P (snd (m s)).

(** [steady m]: [m] leaves the bridge as it found it and never waits for a lock. *)
Definition steady {A : Type} (m : M A) : Prop :=
  forall s, snd (fst (m s)) = s /\ fst (fst (m s)) <> Blocked.

(** Events of the update pass: collaborator calls and warnings. *)
Definition call_or_warning (e : event) : Prop :=
  match e with
  | EvCall _ | EvLogwarn _ => True
  | _ => False
  end.

(** Lines 107-109: clock, update pass, flush. *)
Definition pass (raises : call -> option exn) (carla_timestamp : Q) : M unit :=
  invoke raises (update_clock carla_timestamp) ;;;
  update raises ;;;
  invoke raises send_msgs.

(** The bridge while a tick that advanced the clock holds the lock. *)
Definition ticking (t : Q) (s : bridge) : bridge :=
  set_timestamp_last_run t (set_locked update_lock true s).

(** A tick that finds the bridge shutting down, the lock taken, or a
    timestamp that does not advance. *)
Definition stale (s : bridge) (t : Q) : Prop :=
  is_shutdown (get_binding s) = true \/
  update_locked s = true \/
  Qltb (timestamp_last_run s) t = false.

Definition lock_event (e : event) : Prop :=
  e = EvAcquire update_lock \/ e = EvRelease update_lock.




(** [mutations_locked held tr]: every [self.actors[k] = v] and
    [del self.actors[k]] of [tr] happens between an acquire and a release of
    the update lock by this thread; [held] says whether it holds the lock at
    the start. *)
Fixpoint mutations_locked (held : bool) (tr : list event) : bool :=
  match tr with
  | [] => true
  | EvAcquire update_lock :: rest => mutations_locked true rest
  | EvRelease update_lock :: rest => mutations_locked false rest
  | EvSetitem _ :: rest => held && mutations_locked held rest
  | EvDelitem _ :: rest => held && mutations_locked held rest
  | _ :: rest => mutations_locked held rest
  end.

Fixpoint holds_after (held : bool) (tr : list event) : bool :=
  match tr with
  | [] => held
  | EvAcquire update_lock :: rest => holds_after true rest
  | EvRelease update_lock :: rest => holds_after false rest
  | _ :: rest => holds_after held rest
  end.

Definition not_delitem (e : event) : Prop := forall k, e <> EvDelitem k.

(** Traces in which every [del] comes right after the warning that names
    the same id. *)
Inductive logged_removals : list event -> Prop :=
| logged_nil : logged_removals []
| logged_del k tr :
    logged_removals tr ->
    logged_removals (EvLogwarn (RemoveActor k) :: EvDelitem k :: tr)
| logged_other e tr :
    not_delitem e -> logged_removals tr -> logged_removals (e :: tr).

(** [keeps_or_deletes m]: a key of the registry is still a key after [m],
    or [m] emitted its [del]. *)
Definition keeps_or_deletes {A : Type} (m : M A) : Prop :=
  forall s k,
    In k (dict_keys (actors s)) ->
    In k (dict_keys (actors (snd (fst (m s))))) \/ In (EvDelitem k) (snd (m s)).

(** A handle and its ancestors. *)
Fixpoint chain (h : carla_actor) : list carla_actor :=
  match h with
  | CarlaActor _ _ _ p =>
      h :: match p with
           | Some q => chain q
           | None => []
           end
  end.

(** Every handle the pass can see: the enumeration and the ancestors. *)
Definition handles (E : list carla_actor) : list carla_actor := flat_map chain E.

(** Ids identify simulator objects: two handles with one id are the same. *)
Definition ids_identify (H : list carla_actor) : Prop :=
  forall h1 h2, In h1 H -> In h2 H -> id h1 = id h2 -> h1 = h2.

(** [parents_first H seen tr]: whenever [tr] stores the id of a handle of
    [H] that has a parent, the parent's id is among the ids [seen] so far:
    those at the start and those stored earlier in [tr]. *)
Fixpoint parents_first (H : list carla_actor) (seen : list Z) (tr : list event) : Prop :=
  match tr with
  | [] => True
  | EvSetitem k :: rest =>
      (forall h p, In h H -> id h = k -> parent h = Some p -> In (id p) seen)
      /\ parents_first H (k :: seen) rest
  | _ :: rest => parents_first H seen rest
  end.

Fixpoint seen_after (seen : list Z) (tr : list event) : list Z :=
  match tr with
  | [] => seen
  | EvSetitem k :: rest => seen_after (k :: seen) rest
  | _ :: rest => seen_after seen rest
  end.

Definition not_setitem (e : event) : Prop := forall k, e <> EvSetitem k.

(** Every key of the registry is the id of the entity stored under it. *)
Definition well_keyed (d : dict) : Prop :=
  forall k a, In (k, a) d -> get_id a = k.

(** The registry agrees with the ids the simulator lists: every listed id
    is a key, and every key other than 0 is listed. *)
Definition agrees (ids : list Z) (d : dict) : Prop :=
  (forall k, In k ids -> In k (dict_keys d)) /\
  (forall k, In k (dict_keys d) -> k <> 0 -> In k ids).

(** An object-list publisher of one vehicle, as [create_actor] appends it. *)
Definition is_publisher (p : pseudo_actor) : Prop :=
  match p with
  | ObjectSensor (Some a) _ (Some f) => class_name a = EgoVehicle /\ f = get_id a
  | _ => False
  end.

Definition is_warning (e : event) : Prop :=
  match e with
  | EvLogwarn _ => True
  | _ => False
  end.

(** One firing of a callback registered with [on_tick]. *)
Inductive callback : Type :=
| Tick (raises : call -> option exn) (carla_timestamp : Q)
| ChildActors (py : python) (carla_actors : list carla_actor).

Definition fire (c : callback) : M unit :=
  match c with
  | Tick raises t => _carla_time_tick raises t
  | ChildActors py E => _carla_update_child_actors py E
  end.

(** A sequence of firings: how each one ended, the bridge after the last,
    and all the events.  An error of one does not stop the next. *)
Fixpoint fire_all (cs : list callback) (s : bridge)
  : list (result unit) * bridge * list event :=
  match cs with
  | [] => ([], s, [])
  | c :: rest =>
      let '(r, s1, t1) := fire c s in
      let '(rs, s2, t2) := fire_all rest s1 in
      (r :: rs, s2, t1 ++ t2)
  end.

(** The parts of the bridge that reconciliation does not touch. *)
Definition same_frame (s s' : bridge) : Prop :=
  get_binding s' = get_binding s /\
  timestamp_last_run s' = timestamp_last_run s /\
  update_child_actors_locked s' = update_child_actors_locked s /\
  update_locked s' = update_locked s.

(** The events a reconciliation pass can emit: registry and pseudo-list
    mutations under the update lock, and warnings.  It does not sleep,
    call a collaborator's update, or touch the reconciliation lock. *)
Definition reconciliation_event (e : event) : Prop :=
  match e with
  | EvAcquire update_lock | EvRelease update_lock
  | EvLogwarn _ | EvSetitem _ | EvDelitem _ | EvAppendPseudo _ => True
  | _ => False
  end.

(** [q] is the object-list publisher of the ego vehicle created from a
    handle of the chain of [h]. *)
Definition chain_publisher (names : list string) (h : carla_actor)
           (q : pseudo_actor) : Prop :=
  exists anc a,
    In anc (chain h) /\
    is_ego names anc = true /\
    class_name a = EgoVehicle /\
    carla_handle a = anc /\
    q = ObjectSensor (Some a) "objects" (Some (id anc)).

(** [q] is the publisher of an ego vehicle created from an ancestor of [h]. *)
Definition ancestor_publisher (names : list string) (h : carla_actor)
           (q : pseudo_actor) : Prop :=
  exists p, parent h = Some p /\ chain_publisher names p q.

(** [mid] is what resolving the parent of [h] appends to the pseudo-entity
    list: nothing when there is no parent or it is registered, otherwise
    what the recursive call [create_actor parent] appends. *)
Definition appended_for_parent (h : carla_actor) (s : bridge)
           (mid : list pseudo_actor) : Prop :=
  match parent h with
  | None => mid = []
  | Some p =>
      if dict_in (id p) (actors s) then mid = []
      else exists pa s1 t1,
          create_actor p s = (Ok pa, s1, t1) /\
          pseudo_actors s1 = pseudo_actors s ++ mid
  end.

(** * Concrete inputs *)

(** The class of the entity [create_actor] returns for a parentless handle
    with tag [t], on a fresh bridge. *)
Definition created_class (names : list string) (t : string)
           (attrs : list (string * string)) : option actor_class :=
  match create_actor (CarlaActor 7 t attrs None) (init (mkBinding false names)) with
  | (Ok a, _, _) => Some (class_name a)
  | _ => None
  end.

Definition hero : carla_actor :=
  CarlaActor 1 "vehicle.tesla" [("role_name", "hero")] None.

Definition fresh_bridge : bridge := init (mkBinding false ["hero"]).

(** A trailer attached to an ego truck, with an ego role name and without. *)
Definition towing : carla_actor :=
  CarlaActor 1 "vehicle.truck" [("role_name", "hero")] None.

Definition towed_ego : carla_actor :=
  CarlaActor 2 "vehicle.trailer" [("role_name", "hero")] (Some towing).

Definition towed_npc : carla_actor :=
  CarlaActor 3 "vehicle.trailer" [("role_name", "npc")] (Some towing).

Definition pseudo_filters (s : bridge) : list (option Z) :=
  map (fun a => match a with
                | Map _ => None
                | ObjectSensor _ _ f => f
                end) (pseudo_actors s).

Definition camera_handle : carla_actor := CarlaActor 5 "sensor.camera.rgb" [] None.
Definition lidar_handle : carla_actor := CarlaActor 6 "sensor.lidar.ray_cast" [] None.

(** The bridge after one reconciliation that found a camera and a lidar. *)
Definition two_sensors : bridge :=
  let '(_, s, _) := update_actors Python2 [camera_handle; lidar_handle] fresh_bridge in s.

Definition camera_entity : actor := new_actor Sensor camera_handle None.
Definition lidar_entity : actor := new_actor Sensor lidar_handle None.

(** The camera was destroyed in the simulator: its update raises RuntimeError. *)
Definition camera_destroyed : call -> option exn :=
  fun c =>
    match c with
    | actor_update a =>
        if get_id a =? 5 then Some (Exn RuntimeError "destroyed actor") else None
    | _ => None
    end.

(** The map publisher fails. *)
Definition map_fails : call -> option exn :=
  fun c =>
    match c with
    | pseudo_update (Map _) => Some (Exn RuntimeError "no map")
    | _ => None
    end.

(** The camera raises RuntimeError, then the lidar raises KeyError. *)
Definition lidar_key_error : call -> option exn :=
  fun c =>
    match c with
    | actor_update a =>
        if get_id a =? 5 then Some (Exn RuntimeError "destroyed actor")
        else if get_id a =? 6 then Some (Exn KeyError "channels")
        else None
    | _ => None
    end.

(** The camera raises RecursionError and the lidar an error of a class the
    simulator's client derives from RuntimeError. *)
Definition derived_errors : call -> option exn :=
  fun c =>
    match c with
    | actor_update a =>
        if get_id a =? 5
        then Some (Exn RecursionError "maximum recursion depth exceeded")
        else if get_id a =? 6
        then Some (Exn (OtherException "ActorDestroyed" true) "lidar is gone")
        else None
    | _ => None
    end.

(** The flush fails. *)
Definition flush_fails : call -> option exn :=
  fun c =>
    match c with
    | send_msgs => Some (Exn (OtherException "ROSException" false) "publish failed")
    | _ => None
    end.

Definition origin_handle : carla_actor := CarlaActor 0 "static.prop.cone" [] None.

(** The bridge after one reconciliation that found the actor with id 0. *)
Definition origin_registered : bridge :=
  let '(_, s, _) := update_actors Python2 [origin_handle] fresh_bridge in s.

(** The scenario of the specification: ids 1, 2, 3 registered, the simulator
    lists 1 and 3. *)
Definition prop_handle (n : Z) : carla_actor := CarlaActor n "static.prop" [] None.

Definition three_props : bridge :=
  let '(_, s, _) :=
    update_actors Python2 [prop_handle 1; prop_handle 2; prop_handle 3] fresh_bridge
  in s.

(** The scenario of the specification: a depth camera attached to a vehicle;
    the simulator lists the camera before the vehicle. *)
Definition car_handle : carla_actor :=
  CarlaActor 1 "vehicle.tesla" [("role_name", "npc")] None.

Definition depth_camera_handle : carla_actor :=
  CarlaActor 2 "sensor.camera.depth" [] (Some car_handle).

(** The bridge after a pass in which the simulator listed the camera but
    not the vehicle it is attached to. *)
Definition camera_without_car (py : python) : bridge :=
  let '(_, s, _) := update_actors py [depth_camera_handle] fresh_bridge in s.

(** From [camera_without_car]: a pass that lists the camera alone leaves the
    vehicle unregistered, and a pass that lists both stores the vehicle after
    the camera's entry. *)
Definition parent_after_child (py : python) : Prop :=
  dict_keys (actors (camera_without_car py)) = [2] /\
  (let '(r, s', tr) :=
     update_actors py [depth_camera_handle] (camera_without_car py) in
   r = Ok tt /\ dict_in (id car_handle) (actors s') = false /\ tr = []) /\
  (let '(r, s', tr) :=
     update_actors py [depth_camera_handle; car_handle] (camera_without_car py) in
   r = Ok tt /\ dict_keys (actors s') = [2; 1] /\
   ~ In (EvSetitem (id depth_camera_handle)) tr).



(** An ego vehicle with a camera attached. *)
Definition ego_camera_handle : carla_actor :=
  CarlaActor 9 "sensor.camera.rgb" [] (Some hero).

(** * Properties *)

(** ** Dictionary and list facts *)

Lemma mem_In (k : Z) (l : list Z) : mem k l = true <-> In k l.
Proof.
  induction l as [|x l IH]; simpl.
  - split; [discriminate | tauto].
  - rewrite orb_true_iff, IH, Z.eqb_eq. split; intros [H|H]; auto.
Qed.

Lemma mem_notIn (k : Z) (l : list Z) : mem k l = false <-> ~ In k l.
Proof.
  rewrite <- mem_In. destruct (mem k l); split; congruence.
Qed.

Lemma dict_get_None (k : Z) (d : dict) :
  dict_get k d = None <-> ~ In k (dict_keys d).
Proof.
  induction d as [|[k' v] d IH]; simpl.
  - tauto.
  - destruct (Z.eqb_spec k k') as [->|Hne].
    + split; [discriminate | intros H; exfalso; apply H; now left].
    + rewrite IH. split; intros H; [intros [E|I]; [congruence | tauto] | tauto].
Qed.

Lemma dict_get_Some_In (k : Z) (d : dict) (a : actor) :
  dict_get k d = Some a -> In k (dict_keys d).
Proof.
  intros H. destruct (in_dec Z.eq_dec k (dict_keys d)) as [I|N]; [exact I|].
  apply dict_get_None in N. congruence.
Qed.

Lemma dict_in_mem (k : Z) (d : dict) : dict_in k d = mem k (dict_keys d).
Proof.
  unfold dict_in. destruct (dict_get k d) eqn:E.
  - symmetry. apply mem_In. eapply dict_get_Some_In; eauto.
  - symmetry. apply mem_notIn. now apply dict_get_None.
Qed.

Lemma dict_in_In (k : Z) (d : dict) : dict_in k d = true <-> In k (dict_keys d).
Proof. rewrite dict_in_mem. apply mem_In. Qed.

Lemma dict_set_keys (k : Z) (v : actor) (d : dict) (k' : Z) :
  In k' (dict_keys (dict_set k v d)) <-> k' = k \/ In k' (dict_keys d).
Proof.
  induction d as [|[k0 v0] d IH]; simpl.
  - intuition.
  - destruct (Z.eqb_spec k k0) as [->|Hne]; simpl.
    + intuition.
    + rewrite IH. intuition.
Qed.

Lemma dict_get_set_same (k : Z) (v : actor) (d : dict) :
  dict_get k (dict_set k v d) = Some v.
Proof.
  induction d as [|[k0 v0] d IH]; simpl.
  - now rewrite Z.eqb_refl.
  - destruct (Z.eqb_spec k k0) as [->|Hne]; simpl.
    + now rewrite Z.eqb_refl.
    + destruct (Z.eqb_spec k k0); [contradiction | exact IH].
Qed.

Lemma dict_del_keys_incl (k : Z) (d : dict) (k' : Z) :
  In k' (dict_keys (dict_del k d)) -> In k' (dict_keys d).
Proof.
  induction d as [|[k0 v0] d IH]; simpl; [tauto|].
  destruct (Z.eqb_spec k k0); simpl; intuition.
Qed.

Lemma dict_del_keys_other (k : Z) (d : dict) (k' : Z) :
  k' <> k -> In k' (dict_keys d) -> In k' (dict_keys (dict_del k d)).
Proof.
  intros Hne. induction d as [|[k0 v0] d IH]; simpl; [tauto|].
  destruct (Z.eqb_spec k k0) as [->|]; simpl; intuition congruence.
Qed.

(** Induction along the parent chain of a handle. *)
Lemma carla_actor_parent_ind (P : carla_actor -> Prop)
  (step : forall h, (forall p, parent h = Some p -> P p) -> P h) :
  forall h, P h.
Proof.
  fix IH 1. intros [i t a [q|]]; apply step; simpl; intros p E.
  - injection E as <-. apply IH.
  - discriminate.
Qed.

(** ** What one call of the factory does *)

Lemma set_pseudo_actors_same (s : bridge) :
  set_pseudo_actors (pseudo_actors s ++ []) s = s.
Proof. destruct s; unfold set_pseudo_actors; simpl. now rewrite app_nil_r. Qed.

Lemma construct_unlocked (h : carla_actor) (p : option actor) (s : bridge) :
  update_locked s = false ->
  let a := new_actor (variant_of (ego_names s) h) h p in
  let pubs := if is_ego (ego_names s) h then [publisher_of h a] else [] in
  construct h p s =
    (Ok a, set_pseudo_actors (pseudo_actors s ++ pubs) s,
     if is_ego (ego_names s) h
     then [EvAcquire update_lock; EvAppendPseudo (publisher_of h a); EvRelease update_lock]
     else []).
Proof.
  intros Hfree. unfold construct, variant_of, is_ego, ego_names, bind, get. simpl.
  destruct (startswith (type_id h) "traffic"); simpl.
  { destruct (String.eqb (type_id h) "traffic.traffic_light");
      unfold ret; now rewrite set_pseudo_actors_same. }
  destruct (startswith (type_id h) "vehicle"); simpl.
  { destruct (role_in _ _); simpl.
    - unfold with_lock, acquire, release, append_pseudo, emit, modify, bind, ret. simpl.
      rewrite Hfree. simpl. destruct s; simpl in *; subst. reflexivity.
    - unfold ret; now rewrite set_pseudo_actors_same. }
  destruct (startswith (type_id h) "sensor"); simpl.
  { unfold ret; now rewrite set_pseudo_actors_same. }
  destruct (startswith (type_id h) "spectator"); simpl;
    unfold ret; now rewrite set_pseudo_actors_same.
Qed.

Lemma register_unlocked (h : carla_actor) (a : actor) (s : bridge) :
  update_locked s = false ->
  register h a s =
    (Ok a, set_actors (dict_set (id h) a (actors s)) s,
     [created_warning h a; EvAcquire update_lock; EvSetitem (id h);
      EvRelease update_lock]).
Proof.
  intros Hfree.
  unfold register, with_lock, acquire, release, setitem, logwarn, emit, modify,
    bind, ret, created_warning. simpl.
  rewrite Hfree. simpl. destruct s; simpl in *; subst. reflexivity.
Qed.

Lemma create_actor_eq (h : carla_actor) :
  create_actor h =
    (parent_ <-
       match parent h with
       | Some p =>
           s <- get ;;
           match dict_get (id p) (actors s) with
           | Some a => ret (Some a)
           | None => a <- create_actor p ;; ret (Some a)
           end
       | None => ret None
       end ;;
     actor_ <- construct h parent_ ;;
     register h actor_).
Proof. destruct h; reflexivity. Qed.

Lemma construct_register_unlocked (h : carla_actor) (p : option actor) (s : bridge) :
  update_locked s = false ->
  (actor_ <- construct h p ;; register h actor_) s =
    (let '(a, s', t) := finish h p s in (Ok a, s', t)).
Proof.
  intros Hfree. unfold bind at 1.
  rewrite (construct_unlocked h p s Hfree). cbv zeta.
  rewrite register_unlocked by (destruct s; exact Hfree).
  unfold finish. destruct (is_ego (ego_names s) h); simpl.
  - reflexivity.
  - now rewrite set_pseudo_actors_same.
Qed.

Lemma finish_update_locked h p s a s' t :
  finish h p s = (a, s', t) -> update_locked s' = update_locked s.
Proof.
  unfold finish. destruct (is_ego _ _); intros E; inversion E; subst; reflexivity.
Qed.

Lemma creates_update_locked h s a s' t :
  creates h s a s' t -> update_locked s' = update_locked s.
Proof.
  induction 1 as [h s a s' t _ F | h p pa s a s' t _ _ F
                 | h p pa s s1 t1 a s' t _ _ _ IH F];
    apply finish_update_locked in F; congruence.
Qed.

(** With the update lock free the factory returns, and [creates] describes
    the call. *)
Lemma create_actor_creates :
  forall h s, update_locked s = false ->
    exists a s' t, create_actor h s = (Ok a, s', t) /\ creates h s a s' t.
Proof.
  induction h as [h IH] using carla_actor_parent_ind. intros s Hfree.
  rewrite create_actor_eq.
  destruct (parent h) as [p|] eqn:Hp.
  - destruct (dict_get (id p) (actors s)) as [pa|] eqn:Hget.
    + destruct (finish h (Some pa) s) as [[a s'] t] eqn:F.
      exists a, s', t. split; [|eapply creates_reuse; eauto].
      unfold bind at 1. unfold bind at 1. unfold get at 1. rewrite Hget.
      unfold ret at 1. cbv iota beta. cbv iota beta.
      rewrite (construct_register_unlocked h (Some pa) s Hfree), F. reflexivity.
    + destruct (IH p eq_refl s Hfree) as (pa & s1 & t1 & Hrun & Hc).
      assert (Hfree1 : update_locked s1 = false)
        by (rewrite (creates_update_locked _ _ _ _ _ Hc); exact Hfree).
      destruct (finish h (Some pa) s1) as [[a s'] t] eqn:F.
      exists a, s', (t1 ++ t). split; [|eapply creates_parent; eauto].
      unfold bind at 1. unfold bind at 1. unfold get at 1. rewrite Hget.
      unfold bind at 1. rewrite Hrun. unfold ret at 1. cbv iota beta. cbv iota beta.
      rewrite (construct_register_unlocked h (Some pa) s1 Hfree1), F.
      now rewrite app_nil_r.
  - destruct (finish h None s) as [[a s'] t] eqn:F.
    exists a, s', t. split; [|eapply creates_orphan; eauto].
    unfold bind at 1. unfold ret at 1. cbv iota beta.
    rewrite (construct_register_unlocked h None s Hfree), F. reflexivity.
Qed.

Lemma finish_inv h p s a s' t :
  finish h p s = (a, s', t) ->
  a = new_actor (variant_of (ego_names s) h) h p /\
  actors s' = dict_set (id h) a (actors s) /\
  pseudo_actors s' =
    pseudo_actors s ++ (if is_ego (ego_names s) h then [publisher_of h a] else []) /\
  get_binding s' = get_binding s /\
  timestamp_last_run s' = timestamp_last_run s /\
  update_child_actors_locked s' = update_child_actors_locked s /\
  exists t0, t = t0 ++ [EvAcquire update_lock; EvSetitem (id h); EvRelease update_lock]
             /\ forall k, ~ In (EvSetitem k) t0.
Proof.
  unfold finish. destruct (is_ego _ _); intros E; inversion E; subst; simpl;
    repeat split; try reflexivity; try (now rewrite app_nil_r).
  - exists [EvAcquire update_lock;
            EvAppendPseudo (publisher_of h (new_actor (variant_of (ego_names s) h) h p));
            EvRelease update_lock;
            created_warning h (new_actor (variant_of (ego_names s) h) h p)].
    split; [reflexivity|]. unfold created_warning. simpl. intros k [H|[H|[H|[H|[]]]]]; discriminate.
  - exists [created_warning h (new_actor (variant_of (ego_names s) h) h p)].
    split; [reflexivity|]. unfold created_warning. simpl. intros k [H|[]]; discriminate.
Qed.

Lemma creates_frame h s a s' t :
  creates h s a s' t ->
  get_binding s' = get_binding s /\
  timestamp_last_run s' = timestamp_last_run s /\
  update_child_actors_locked s' = update_child_actors_locked s.
Proof.
  induction 1 as [h s a s' t _ F | h p pa s a s' t _ _ F
                 | h p pa s s1 t1 a s' t _ _ _ IH F];
    apply finish_inv in F; destruct F as (_ & _ & _ & B & T & L & _).
  1, 2: now repeat split.
  destruct IH as (B1 & T1 & L1). repeat split; congruence.
Qed.

Lemma creates_ego_names h s a s' t :
  creates h s a s' t -> ego_names s' = ego_names s.
Proof.
  intros H. apply creates_frame in H. unfold ego_names. now destruct H as [-> _].
Qed.

(** The entity returned and the publishers appended: those of the ancestors
    created on the way, then the handle's own if it is an ego vehicle. *)
Lemma creates_result h s a s' t :
  creates h s a s' t ->
  class_name a = variant_of (ego_names s) h /\
  carla_handle a = h /\
  dict_get (id h) (actors s') = Some a /\
  exists mid,
    pseudo_actors s' =
      pseudo_actors s ++ mid ++
      (if is_ego (ego_names s) h then [publisher_of h a] else []) /\
    (parent_resolved h s = true -> mid = []).
Proof.
  intros H.
  destruct H as [h s a s' t Hp F | h p pa s a s' t Hp Hget F
                | h p pa s s1 t1 a s' t Hp Hget Hc F].
  - apply finish_inv in F. destruct F as (-> & A & P & _).
    repeat split; try reflexivity.
    + rewrite A. apply dict_get_set_same.
    + exists []. split; [exact P | reflexivity].
  - apply finish_inv in F. destruct F as (-> & A & P & _).
    repeat split; try reflexivity.
    + rewrite A. apply dict_get_set_same.
    + exists []. split; [exact P | reflexivity].
  - pose proof (creates_ego_names _ _ _ _ _ Hc) as En.
    apply finish_inv in F. destruct F as (-> & A & P & _).
    rewrite En in *. repeat split; try reflexivity.
    + rewrite A. apply dict_get_set_same.
    + assert (Hgrow : exists mid, pseudo_actors s1 = pseudo_actors s ++ mid).
      { clear - Hc. induction Hc as [h s a s' t _ F | h p pa s a s' t _ _ F
                                    | h p pa s s1 t1 a s' t _ _ _ IH F];
          apply finish_inv in F; destruct F as (_ & _ & P & _).
        - eexists; exact P.
        - eexists; exact P.
        - destruct IH as [m Hm]. rewrite P, Hm, <- app_assoc. eexists; reflexivity. }
      destruct Hgrow as [mid Hmid]. exists mid. split.
      * rewrite P, Hmid, <- app_assoc. reflexivity.
      * unfold parent_resolved, dict_in. rewrite Hp, Hget. discriminate.
Qed.

(** ** Classification *)

Lemma sensor_class_collapses (t : string) :
  sensor_class t =
    if startswith t "sensor.other.lane_invasion" then LaneInvasionSensor else Sensor.
Proof. reflexivity. Qed.

Lemma vehicle_not_traffic (t : string) :
  startswith t "vehicle" = true -> startswith t "traffic" = false.
Proof.
  unfold startswith. destruct t as [|c t]; cbn [String.prefix]; [discriminate|].
  destruct (Ascii.ascii_dec "v"%char c) as [<-|]; intros H; [reflexivity | discriminate H].
Qed.

(** C1 (fails on the code).  The tags [sensor.camera.rgb],
    [sensor.camera.depth], [sensor.camera.semantic_segmentation], another
    [sensor.camera.*], [sensor.lidar.*], [sensor.other.gnss] and
    [sensor.other.collision] are all turned into the generic [Sensor]: the
    [else] of lines 204-205 belongs to the lane-invasion test alone and
    overwrites what the earlier tests chose.  The other tags of the closed
    set get the documented class. *)
Theorem create_actor_specific_sensors_are_generic :
  map (fun t => created_class ["hero"] t [])
      ["sensor.camera.rgb"; "sensor.camera.depth";
       "sensor.camera.semantic_segmentation"; "sensor.camera.dvs";
       "sensor.lidar.ray_cast"; "sensor.other.gnss"; "sensor.other.collision"]
  = [Some Sensor; Some Sensor; Some Sensor; Some Sensor;
     Some Sensor; Some Sensor; Some Sensor]
  /\
  map (fun t => created_class ["hero"] t [("role_name", "hero")])
      ["traffic.traffic_light"; "traffic.stop"; "vehicle.tesla.model3";
       "sensor.other.lane_invasion"; "sensor.other.imu"; "spectator"; "static.prop"]
  = [Some TrafficLight; Some Traffic; Some EgoVehicle;
     Some LaneInvasionSensor; Some Sensor; Some Spectator; Some Actor]
  /\
  created_class ["hero"] "vehicle.tesla.model3" [("role_name", "npc")] = Some Vehicle.
Proof. repeat split; vm_compute; reflexivity. Qed.

(** ** The ego vehicle's publisher *)

Lemma variant_of_vehicle names h :
  startswith (type_id h) "vehicle" = true ->
  variant_of names h =
    (if role_in (attr_get "role_name" (attributes h)) names then EgoVehicle else Vehicle)
  /\ is_ego names h = role_in (attr_get "role_name" (attributes h)) names.
Proof.
  intros Hv. unfold variant_of, is_ego.
  rewrite (vehicle_not_traffic _ Hv), Hv. split; reflexivity.
Qed.

(** C8 as stated fails when the parent is an ego vehicle that is not yet
    registered: creating the child creates the parent first, so an ego child
    appends two publishers and a non-ego child appends one. *)
Lemma create_actor_vehicle_counterexample :
  (let '(_, s', _) := create_actor towed_ego fresh_bridge in
   List.length (pseudo_actors s') = (List.length (pseudo_actors fresh_bridge) + 2)%nat /\
   pseudo_filters s' = [None; None; Some 1; Some 2])
  /\
  (let '(r, s', _) := create_actor towed_npc fresh_bridge in
   (exists a, r = Ok a /\ class_name a = Vehicle) /\
   pseudo_actors s' <> pseudo_actors fresh_bridge /\
   pseudo_filters s' = [None; None; Some 1]).
Proof.
  split.
  - vm_compute. split; reflexivity.
  - vm_compute. split; [eexists; split; reflexivity|]. split; [discriminate | reflexivity].
Qed.

(** ** Running a [bind] *)

Lemma bind_Ok {A B : Type} (m : M A) (k : A -> M B) (s s1 : bridge) (a : A)
      (t1 : list event) :
  m s = (Ok a, s1, t1) ->
  bind m k s = (let '(r, s2, t2) := k a s1 in (r, s2, t1 ++ t2)).
Proof. intros H. unfold bind. now rewrite H. Qed.

Lemma bind_Raise {A B : Type} (m : M A) (k : A -> M B) (s s1 : bridge) (e : exn)
      (t1 : list event) :
  m s = (Raise e, s1, t1) -> bind m k s = (Raise e, s1, t1).
Proof. intros H. unfold bind. now rewrite H. Qed.

Lemma invoke_ok (raises : call -> option exn) (c : call) (s : bridge) :
  raises c = None -> invoke raises c s = (Ok tt, s, [EvCall c]).
Proof. intros H. unfold invoke. now rewrite H. Qed.

Lemma invoke_raise (raises : call -> option exn) (c : call) (e : exn) (s : bridge) :
  raises c = Some e -> invoke raises c s = (Raise e, s, [EvCall c]).
Proof. intros H. unfold invoke. now rewrite H. Qed.

(** ** The update pass *)

Lemma dict_get_NoDup (d : dict) (k : Z) (a : actor) :
  NoDup (dict_keys d) -> In (k, a) d -> dict_get k d = Some a.
Proof.
  induction d as [|[k0 v0] d IH]; simpl; [tauto|].
  intros Hnd [E|I].
  - inversion E; subst. now rewrite Z.eqb_refl.
  - inversion Hnd as [|? ? Hnotin Hnd']; subst.
    destruct (Z.eqb_spec k k0) as [->|Hne].
    + exfalso. apply Hnotin. change k0 with (fst (k0, a)). now apply in_map.
    + now apply IH.
Qed.

Section UpdatePass.

Variable raises : call -> option exn.

Lemma update_eq :
  update raises =
    (s <- get ;;
     for_each (pseudo_actors s) (fun a => invoke raises (pseudo_update a)) ;;;
     s <- get ;;
     for_each (dict_keys (actors s)) (update_one raises)).
Proof. reflexivity. Qed.

Lemma pseudo_loop_ok (l : list pseudo_actor) (s : bridge) :
  (forall p, In p l -> raises (pseudo_update p) = None) ->
  for_each l (fun a => invoke raises (pseudo_update a)) s
  = (Ok tt, s, pseudo_events l).
Proof.
  induction l as [|p l IH]; intros Hok; simpl; [reflexivity|].
  rewrite (bind_Ok _ _ _ _ _ _ (invoke_ok raises _ s (Hok p (or_introl eq_refl)))).
  rewrite IH by (intros q Hq; apply Hok; now right). reflexivity.
Qed.

Lemma pseudo_loop_raise (pre post : list pseudo_actor) (p : pseudo_actor)
      (e : exn) (s : bridge) :
  (forall q, In q pre -> raises (pseudo_update q) = None) ->
  raises (pseudo_update p) = Some e ->
  for_each (pre ++ p :: post) (fun a => invoke raises (pseudo_update a)) s
  = (Raise e, s, pseudo_events pre ++ [EvCall (pseudo_update p)]).
Proof.
  induction pre as [|q pre IH]; intros Hok He; simpl.
  - now rewrite (bind_Raise _ _ _ _ _ _ (invoke_raise raises _ e s He)).
  - rewrite (bind_Ok _ _ _ _ _ _ (invoke_ok raises _ s (Hok q (or_introl eq_refl)))).
    rewrite IH by (auto; intros r Hr; apply Hok; now right). reflexivity.
Qed.

Lemma update_one_ok (k : Z) (a : actor) (s : bridge) :
  dict_get k (actors s) = Some a ->
  recoverable raises a ->
  update_one raises k s = (Ok tt, s, entity_events raises (k, a)).
Proof.
  intros Hget Hrec. unfold update_one, try_except_RuntimeError, bind, get, invoke.
  rewrite Hget. simpl. destruct (raises (actor_update a)) as [e|] eqn:He.
  - rewrite (Hrec e He). rewrite Hget. reflexivity.
  - reflexivity.
Qed.

Lemma update_one_raise (k : Z) (a : actor) (e : exn) (s : bridge) :
  dict_get k (actors s) = Some a ->
  raises (actor_update a) = Some e ->
  isinstance_RuntimeError e = false ->
  update_one raises k s = (Raise e, s, [EvCall (actor_update a)]).
Proof.
  intros Hget He Hcls. unfold update_one, try_except_RuntimeError, bind, get, invoke.
  rewrite Hget. simpl. rewrite He, Hcls. reflexivity.
Qed.

Lemma actor_loop_ok (l : dict) (s : bridge) :
  (forall k a, In (k, a) l -> dict_get k (actors s) = Some a /\ recoverable raises a) ->
  for_each (dict_keys l) (update_one raises) s = (Ok tt, s, flat_map (entity_events raises) l).
Proof.
  induction l as [|[k a] l IH]; intros H; [reflexivity|].
  cbn [dict_keys map fst for_each flat_map].
  destruct (H k a (or_introl eq_refl)) as [Hget Hrec].
  rewrite (bind_Ok _ _ _ _ _ _ (update_one_ok k a s Hget Hrec)).
  fold (dict_keys l). rewrite IH by (intros; apply H; now right). reflexivity.
Qed.

Lemma actor_loop_raise (pre post : dict) (k : Z) (a : actor) (e : exn) (s : bridge) :
  (forall k' a', In (k', a') pre ->
                 dict_get k' (actors s) = Some a' /\ recoverable raises a') ->
  dict_get k (actors s) = Some a ->
  raises (actor_update a) = Some e ->
  isinstance_RuntimeError e = false ->
  for_each (dict_keys (pre ++ (k, a) :: post)) (update_one raises) s
  = (Raise e, s, flat_map (entity_events raises) pre ++ [EvCall (actor_update a)]).
Proof.
  induction pre as [|[k0 a0] pre IH]; intros H Hget He Hcls.
  - cbn [app dict_keys map fst for_each flat_map].
    now rewrite (bind_Raise _ _ _ _ _ _ (update_one_raise k a e s Hget He Hcls)).
  - cbn [app dict_keys map fst for_each flat_map].
    destruct (H k0 a0 (or_introl eq_refl)) as [Hget0 Hrec0].
    rewrite (bind_Ok _ _ _ _ _ _ (update_one_ok k0 a0 s Hget0 Hrec0)).
    fold (dict_keys (pre ++ (k, a) :: post)).
    rewrite IH by (auto; intros; apply H; now right).
    now rewrite app_assoc.
Qed.

End UpdatePass.

Lemma update_ok (raises : call -> option exn) (s : bridge) :
  NoDup (dict_keys (actors s)) ->
  (forall p, In p (pseudo_actors s) -> raises (pseudo_update p) = None) ->
  (forall k a, In (k, a) (actors s) -> recoverable raises a) ->
  update raises s
  = (Ok tt, s,
     pseudo_events (pseudo_actors s) ++ flat_map (entity_events raises) (actors s)).
Proof.
  intros Hnd Hps Hrec. rewrite update_eq.
  rewrite (bind_Ok get _ s s s [] eq_refl). cbn [app].
  rewrite (bind_Ok _ _ _ _ _ _ (pseudo_loop_ok raises _ s Hps)).
  rewrite (bind_Ok get _ s s s [] eq_refl). cbn [app].
  rewrite actor_loop_ok; [reflexivity|].
  intros k a Hin. split; [now apply dict_get_NoDup | eauto].
Qed.

Lemma update_pseudo_raise (raises : call -> option exn) (s : bridge)
      (pre post : list pseudo_actor) (p : pseudo_actor) (e : exn) :
  pseudo_actors s = pre ++ p :: post ->
  (forall q, In q pre -> raises (pseudo_update q) = None) ->
  raises (pseudo_update p) = Some e ->
  update raises s = (Raise e, s, pseudo_events pre ++ [EvCall (pseudo_update p)]).
Proof.
  intros Hsplit Hpre He. rewrite update_eq.
  rewrite (bind_Ok get _ s s s [] eq_refl). cbn [app]. rewrite Hsplit.
  now rewrite (bind_Raise _ _ _ _ _ _ (pseudo_loop_raise raises pre post p e s Hpre He)).
Qed.

Lemma update_actor_raise (raises : call -> option exn) (s : bridge)
      (pre post : dict) (k : Z) (a : actor) (e : exn) :
  NoDup (dict_keys (actors s)) ->
  actors s = pre ++ (k, a) :: post ->
  (forall p, In p (pseudo_actors s) -> raises (pseudo_update p) = None) ->
  (forall k' a', In (k', a') pre -> recoverable raises a') ->
  raises (actor_update a) = Some e ->
  isinstance_RuntimeError e = false ->
  update raises s
  = (Raise e, s,
     pseudo_events (pseudo_actors s) ++ flat_map (entity_events raises) pre
     ++ [EvCall (actor_update a)]).
Proof.
  intros Hnd Hsplit Hps Hpre He Hcls. rewrite update_eq.
  rewrite (bind_Ok get _ s s s [] eq_refl). cbn [app].
  rewrite (bind_Ok _ _ _ _ _ _ (pseudo_loop_ok raises _ s Hps)).
  rewrite (bind_Ok get _ s s s [] eq_refl). cbn [app].
  assert (Hin : forall k' a', In (k', a') (actors s) -> dict_get k' (actors s) = Some a')
    by (intros; now apply dict_get_NoDup).
  assert (L : for_each (dict_keys (actors s)) (update_one raises) s
              = (Raise e, s,
                 flat_map (entity_events raises) pre ++ [EvCall (actor_update a)])).
  { rewrite Hsplit at 1. apply actor_loop_raise; auto.
    - intros k' a' I. split; [|now apply (Hpre k')].
      apply Hin. rewrite Hsplit. apply in_or_app. now left.
    - apply Hin. rewrite Hsplit. apply in_or_app. right. now left. }
  rewrite L. reflexivity.
Qed.

(** C3 (amended).  When the pseudo-entities' updates return, a
    [RuntimeError] raised by the [update()] of registry entities is caught
    and logged with the entity's class, id and the error, every registry
    entity has its [update()] invoked, and the pass returns normally, with
    the bridge unchanged. *)
Theorem update_isolates_registry_failures :
  forall (raises : call -> option exn) (s : bridge),
    NoDup (dict_keys (actors s)) ->
    (forall p, In p (pseudo_actors s) -> raises (pseudo_update p) = None) ->
    (forall k a, In (k, a) (actors s) -> recoverable raises a) ->
    exists t,
      update raises s = (Ok tt, s, t) /\
      t = pseudo_events (pseudo_actors s) ++ flat_map (entity_events raises) (actors s) /\
      forall k a, In (k, a) (actors s) ->
        In (EvCall (actor_update a)) t /\
        forall e, raises (actor_update a) = Some e ->
                  In (EvLogwarn (UpdateActorFailed (class_name a) k e)) t.
Proof.
  intros raises s Hnd Hps Hrec. eexists. split; [now apply update_ok|].
  split; [reflexivity|]. intros k a Hin.
  assert (Hsub : forall ev, In ev (entity_events raises (k, a)) ->
                 In ev (pseudo_events (pseudo_actors s)
                        ++ flat_map (entity_events raises) (actors s))).
  { intros ev Hev. apply in_or_app. right. apply in_flat_map. now exists (k, a). }
  split.
  - apply Hsub. now left.
  - intros e He. apply Hsub. simpl. rewrite He. right. now left.
Qed.

(** C10.  Only an instance of [RuntimeError] (the class or a class derived
    from it) raised by a registry entity is caught.  An exception of any
    class from a pseudo-entity's [update()], and an exception that is not an
    instance of [RuntimeError] from a registry entity's [update()], leave the
    pass through its caller; the entities after it are not updated. *)
Theorem update_catch_is_narrow :
  forall (raises : call -> option exn) (s : bridge),
    (forall pre p post e,
        pseudo_actors s = pre ++ p :: post ->
        (forall q, In q pre -> raises (pseudo_update q) = None) ->
        raises (pseudo_update p) = Some e ->
        update raises s
        = (Raise e, s, pseudo_events pre ++ [EvCall (pseudo_update p)]))
    /\
    (forall pre k a post e,
        NoDup (dict_keys (actors s)) ->
        actors s = pre ++ (k, a) :: post ->
        (forall p, In p (pseudo_actors s) -> raises (pseudo_update p) = None) ->
        (forall k' a', In (k', a') pre -> recoverable raises a') ->
        raises (actor_update a) = Some e ->
        isinstance_RuntimeError e = false ->
        update raises s
        = (Raise e, s,
           pseudo_events (pseudo_actors s) ++ flat_map (entity_events raises) pre
           ++ [EvCall (actor_update a)]))
    /\
    (NoDup (dict_keys (actors s)) ->
     (forall p, In p (pseudo_actors s) -> raises (pseudo_update p) = None) ->
     (forall k a, In (k, a) (actors s) -> recoverable raises a) ->
     fst (fst (update raises s)) = Ok tt).
Proof.
  intros raises s. split; [|split].
  - intros. eapply update_pseudo_raise; eauto.
  - intros. eapply update_actor_raise; eauto.
  - intros Hnd Hps Hrec. now rewrite update_ok.
Qed.

(** *** Concrete runs of the update pass *)

Lemma two_sensors_actors :
  actors two_sensors = [(5, camera_entity); (6, lidar_entity)].
Proof. reflexivity. Qed.

Lemma two_sensors_pseudo_actors :
  pseudo_actors two_sensors = [Map "/map"; ObjectSensor None "objects" None].
Proof. reflexivity. Qed.

Lemma two_sensors_NoDup : NoDup (dict_keys (actors two_sensors)).
Proof.
  rewrite two_sensors_actors. simpl.
  repeat constructor; simpl; intuition discriminate.
Qed.

Lemma update_isolates_registry_failures_witness :
  update camera_destroyed two_sensors
  = (Ok tt, two_sensors,
     [EvCall (pseudo_update (Map "/map"));
      EvCall (pseudo_update (ObjectSensor None "objects" None));
      EvCall (actor_update camera_entity);
      EvLogwarn (UpdateActorFailed Sensor 5 (Exn RuntimeError "destroyed actor"));
      EvCall (actor_update lidar_entity)]).
Proof.
  destruct (update_isolates_registry_failures camera_destroyed two_sensors)
    as (t & Hrun & Ht & _).
  - exact two_sensors_NoDup.
  - intros p Hp. rewrite two_sensors_pseudo_actors in Hp.
    destruct Hp as [<-|[<-|[]]]; reflexivity.
  - intros k a Hin e. rewrite two_sensors_actors in Hin.
    destruct Hin as [E|[E|[]]]; inversion E; subst; simpl; intros He;
      inversion He; reflexivity.
  - rewrite Hrun, Ht. reflexivity.
Defined.

(** C3 as stated fails for a pseudo-entity: its [RuntimeError] is neither
    caught nor logged, and no entity after it is updated. *)
Lemma update_isolates_failures_counterexample :
  map_fails (pseudo_update (Map "/map")) = Some (Exn RuntimeError "no map") /\
  isinstance_RuntimeError (Exn RuntimeError "no map") = true /\
  update map_fails two_sensors
  = (Raise (Exn RuntimeError "no map"), two_sensors,
     [EvCall (pseudo_update (Map "/map"))]).
Proof. repeat split. Qed.

Lemma update_catch_is_narrow_witness :
  update map_fails two_sensors
  = (Raise (Exn RuntimeError "no map"), two_sensors,
     [EvCall (pseudo_update (Map "/map"))])
  /\
  update lidar_key_error two_sensors
  = (Raise (Exn KeyError "channels"), two_sensors,
     [EvCall (pseudo_update (Map "/map"));
      EvCall (pseudo_update (ObjectSensor None "objects" None));
      EvCall (actor_update camera_entity);
      EvLogwarn (UpdateActorFailed Sensor 5 (Exn RuntimeError "destroyed actor"));
      EvCall (actor_update lidar_entity)])
  /\
  fst (fst (update camera_destroyed two_sensors)) = Ok tt
  /\
  fst (fst (update derived_errors two_sensors)) = Ok tt.
Proof.
  split; [|split; [|split]].
  - apply (proj1 (update_catch_is_narrow map_fails two_sensors)
             [] (Map "/map") [ObjectSensor None "objects" None]).
    + reflexivity.
    + intros q [].
    + reflexivity.
  - apply (proj1 (proj2 (update_catch_is_narrow lidar_key_error two_sensors))
             [(5, camera_entity)] 6 lidar_entity []).
    + exact two_sensors_NoDup.
    + reflexivity.
    + intros p Hp. rewrite two_sensors_pseudo_actors in Hp.
      destruct Hp as [<-|[<-|[]]]; reflexivity.
    + intros k' a' [E|[]] e. inversion E; subst. simpl. intros He.
      inversion He; reflexivity.
    + reflexivity.
    + reflexivity.
  - apply (proj2 (proj2 (update_catch_is_narrow camera_destroyed two_sensors))).
    + exact two_sensors_NoDup.
    + intros p Hp. rewrite two_sensors_pseudo_actors in Hp.
      destruct Hp as [<-|[<-|[]]]; reflexivity.
    + intros k a Hin e. rewrite two_sensors_actors in Hin.
      destruct Hin as [E|[E|[]]]; inversion E; subst; simpl; intros He;
        inversion He; reflexivity.
  - apply (proj2 (proj2 (update_catch_is_narrow derived_errors two_sensors))).
    + exact two_sensors_NoDup.
    + intros p Hp. rewrite two_sensors_pseudo_actors in Hp.
      destruct Hp as [<-|[<-|[]]]; reflexivity.
    + intros k a Hin e. rewrite two_sensors_actors in Hin.
      destruct Hin as [E|[E|[]]]; inversion E; subst; simpl; intros He;
        inversion He; reflexivity.
Defined.

(** Errors of classes derived from [RuntimeError] are caught like
    [RuntimeError] itself: both entities are updated and both failures are
    logged. *)
Example update_catches_derived_classes :
  update derived_errors two_sensors
  = (Ok tt, two_sensors,
     [EvCall (pseudo_update (Map "/map"));
      EvCall (pseudo_update (ObjectSensor None "objects" None));
      EvCall (actor_update camera_entity);
      EvLogwarn (UpdateActorFailed Sensor 5
                   (Exn RecursionError "maximum recursion depth exceeded"));
      EvCall (actor_update lidar_entity);
      EvLogwarn (UpdateActorFailed Sensor 6
                   (Exn (OtherException "ActorDestroyed" true) "lidar is gone"))]).
Proof. reflexivity. Qed.

(** ** Events a computation can emit *)

Section Emits.

Variable P : event -> Prop.

Lemma emits_ret {A : Type} (a : A) : emits P (ret a).
Proof. intros s. constructor. Qed.

Lemma emits_get : emits P get.
Proof. intros s. constructor. Qed.

Lemma emits_modify (f : bridge -> bridge) : emits P (modify f).
Proof. intros s. constructor. Qed.

Lemma emits_raise {A : Type} (e : exn) : emits P (@raise A e).
Proof. intros s. constructor. Qed.

Lemma emits_emit (e : event) : P e -> emits P (emit e).
Proof. intros H s. repeat constructor. exact H. Qed.

Lemma emits_bind {A B : Type} (m : M A) (k : A -> M B) :
  emits P m -> (forall a, emits P (k a)) -> emits P (bind m k).
Proof.
  intros Hm Hk s. unfold bind. specialize (Hm s).
  destruct (m s) as [[[a|e|] s1] t1]; simpl in *; try exact Hm.
  specialize (Hk a s1). destruct (k a s1) as [[r s2] t2]. simpl in *.
  apply Forall_app. now split.
Qed.

Lemma emits_for_each {A : Type} (l : list A) (body : A -> M unit) :
  (forall x, emits P (body x)) -> emits P (for_each l body).
Proof.
  intros H. induction l as [|x l IH]; simpl.
  - apply emits_ret.
  - apply emits_bind; auto.
Qed.

Lemma emits_acquire (l : lock_name) : P (EvAcquire l) -> emits P (acquire l).
Proof. intros H s. unfold acquire. destruct (locked l s); repeat constructor; exact H. Qed.

Lemma emits_release (l : lock_name) : P (EvRelease l) -> emits P (release l).
Proof. intros H s. unfold release. destruct (locked l s); repeat constructor; exact H. Qed.

Lemma emits_with_lock {A : Type} (l : lock_name) (body : M A) :
  P (EvAcquire l) -> P (EvRelease l) -> emits P body -> emits P (with_lock l body).
Proof.
  intros Ha Hr Hb s. unfold with_lock.
  pose proof (emits_acquire l Ha s) as H1.
  destruct (acquire l s) as [[[u|e|] s1] t1]; simpl in *; try exact H1.
  specialize (Hb s1). destruct (body s1) as [[r s2] t2]. simpl in Hb.
  pose proof (emits_release l Hr s2) as H3.
  destruct (release l s2) as [[[u3|e3|] s3] t3]; simpl in H3;
    destruct r; simpl; repeat (apply Forall_app; split); assumption.
Qed.

Lemma emits_invoke (raises : call -> option exn) (c : call) :
  P (EvCall c) -> emits P (invoke raises c).
Proof. intros H s. unfold invoke. destruct (raises c); repeat constructor; exact H. Qed.

Lemma emits_try_except (body : M unit) (handler : exn -> M unit) :
  emits P body -> (forall e, emits P (handler e)) ->
  emits P (try_except_RuntimeError body handler).
Proof.
  intros Hb Hh s. unfold try_except_RuntimeError. specialize (Hb s).
  destruct (body s) as [[[u|e|] s1] t1]; simpl in *; try exact Hb.
  destruct (isinstance_RuntimeError e); simpl; [|exact Hb].
  specialize (Hh e s1). destruct (handler e s1) as [[r s2] t2]. simpl in *.
  apply Forall_app. now split.
Qed.

End Emits.

Lemma steady_ret {A : Type} (a : A) : steady (ret a).
Proof. intros s. split; [reflexivity | discriminate]. Qed.

Lemma steady_get : steady get.
Proof. intros s. split; [reflexivity | discriminate]. Qed.

Lemma steady_raise {A : Type} (e : exn) : steady (@raise A e).
Proof. intros s. split; [reflexivity | discriminate]. Qed.

Lemma steady_emit (e : event) : steady (emit e).
Proof. intros s. split; [reflexivity | discriminate]. Qed.

Lemma steady_invoke (raises : call -> option exn) (c : call) : steady (invoke raises c).
Proof.
  intros s. unfold invoke. destruct (raises c); split; try reflexivity; discriminate.
Qed.

Lemma steady_bind {A B : Type} (m : M A) (k : A -> M B) :
  steady m -> (forall a, steady (k a)) -> steady (bind m k).
Proof.
  intros Hm Hk s. unfold bind. destruct (Hm s) as [Hs Hr].
  destruct (m s) as [[[a|e|] s1] t1]; simpl in *; subst.
  - destruct (Hk a s) as [Hs2 Hr2]. destruct (k a s) as [[r s2] t2]. simpl in *. now split.
  - split; [reflexivity | discriminate].
  - contradiction.
Qed.

Lemma steady_for_each {A : Type} (l : list A) (body : A -> M unit) :
  (forall x, steady (body x)) -> steady (for_each l body).
Proof.
  intros H. induction l as [|x l IH]; simpl.
  - apply steady_ret.
  - apply steady_bind; auto.
Qed.

Lemma steady_try_except (body : M unit) (handler : exn -> M unit) :
  steady body -> (forall e, steady (handler e)) ->
  steady (try_except_RuntimeError body handler).
Proof.
  intros Hb Hh s. unfold try_except_RuntimeError. destruct (Hb s) as [Hs Hr].
  destruct (body s) as [[[u|e|] s1] t1]; simpl in *; subst.
  - split; [reflexivity | discriminate].
  - destruct (isinstance_RuntimeError e).
    + destruct (Hh e s) as [Hs2 Hr2]. destruct (handler e s) as [[r s2] t2]. simpl in *.
      now split.
    + split; [reflexivity | discriminate].
  - contradiction.
Qed.

Lemma update_steady (raises : call -> option exn) : steady (update raises).
Proof.
  rewrite update_eq.
  apply steady_bind; [apply steady_get|]. intros s0.
  apply steady_bind; [apply steady_for_each; intros; apply steady_invoke|]. intros _.
  apply steady_bind; [apply steady_get|]. intros s1.
  apply steady_for_each. intros k. unfold update_one.
  apply steady_try_except.
  - apply steady_bind; [apply steady_get|]. intros s2.
    destruct (dict_get k (actors s2)); [apply steady_invoke | apply steady_raise].
  - intros e. apply steady_bind; [apply steady_get|]. intros s2.
    destruct (dict_get k (actors s2)); [apply steady_emit | apply steady_raise].
Qed.

Lemma update_emits (raises : call -> option exn) :
  emits call_or_warning (update raises).
Proof.
  rewrite update_eq.
  apply emits_bind; [apply emits_get|]. intros s0.
  apply emits_bind; [apply emits_for_each; intros; now apply emits_invoke|]. intros _.
  apply emits_bind; [apply emits_get|]. intros s1.
  apply emits_for_each. intros k. unfold update_one.
  apply emits_try_except.
  - apply emits_bind; [apply emits_get|]. intros s2.
    destruct (dict_get k (actors s2)); [now apply emits_invoke | apply emits_raise].
  - intros e. apply emits_bind; [apply emits_get|]. intros s2.
    destruct (dict_get k (actors s2)); [now apply emits_emit | apply emits_raise].
Qed.

(** ** The update tick *)

Lemma pass_steady raises t : steady (pass raises t).
Proof.
  unfold pass. apply steady_bind; [apply steady_invoke|]. intros _.
  apply steady_bind; [apply update_steady|]. intros _. apply steady_invoke.
Qed.

Lemma pass_emits raises t : emits call_or_warning (pass raises t).
Proof.
  unfold pass. apply emits_bind; [now apply emits_invoke|]. intros _.
  apply emits_bind; [apply update_emits|]. intros _. now apply emits_invoke.
Qed.

Lemma pass_first_event raises t s :
  exists tr, snd (pass raises t s) = EvCall (update_clock t) :: tr.
Proof.
  unfold pass. destruct (raises (update_clock t)) as [e|] eqn:He.
  - rewrite (bind_Raise _ _ _ _ _ _ (invoke_raise raises _ e s He)).
    eexists; reflexivity.
  - rewrite (bind_Ok _ _ _ _ _ _ (invoke_ok raises _ s He)).
    destruct ((update raises ;;; invoke raises send_msgs) s) as [[r s2] t2].
    eexists; reflexivity.
Qed.

Lemma pass_run raises t s :
  exists r tr,
    pass raises t s = (r, s, EvCall (update_clock t) :: tr) /\
    r <> Blocked /\ Forall call_or_warning tr.
Proof.
  destruct (pass_steady raises t s) as [Hs Hr].
  pose proof (pass_emits raises t s) as He.
  destruct (pass_first_event raises t s) as [tr Htr].
  destruct (pass raises t s) as [[r s'] t'] eqn:E. simpl in *. subst.
  exists r, tr. split; [reflexivity|]. split; [exact Hr|]. now inversion He.
Qed.

Lemma tick_eq raises t :
  _carla_time_tick raises t =
    (s <- get ;;
     if negb (is_shutdown (get_binding s)) then
       got <- try_acquire update_lock ;;
       if got then
         s <- get ;;
         (if Qltb (timestamp_last_run s) t then
            modify (set_timestamp_last_run t) ;;; pass raises t
          else ret tt) ;;;
         release update_lock
       else ret tt
     else ret tt).
Proof. reflexivity. Qed.

(** The update tick when the gate is open: not shutting down, lock free. *)
Lemma tick_open raises t s :
  is_shutdown (get_binding s) = false ->
  update_locked s = false ->
  _carla_time_tick raises t s =
    if Qltb (timestamp_last_run s) t then
      match pass raises t (ticking t s) with
      | (Ok _, _, tr) =>
          (Ok tt, set_timestamp_last_run t s,
           EvAcquire update_lock :: tr ++ [EvRelease update_lock])
      | (Raise e, _, tr) => (Raise e, ticking t s, EvAcquire update_lock :: tr)
      | (Blocked, _, tr) => (Blocked, ticking t s, EvAcquire update_lock :: tr)
      end
    else (Ok tt, s, [EvAcquire update_lock; EvRelease update_lock]).
Proof.
  intros Hshut Hfree. rewrite tick_eq.
  rewrite (bind_Ok get _ s s s [] eq_refl). rewrite Hshut. cbn [negb app].
  rewrite (bind_Ok (try_acquire update_lock) _ s (set_locked update_lock true s) true
                   [EvAcquire update_lock])
    by (unfold try_acquire; simpl; now rewrite Hfree).
  cbv iota.
  rewrite (bind_Ok get _ _ _ _ [] eq_refl). cbn [app].
  replace (timestamp_last_run (set_locked update_lock true s))
    with (timestamp_last_run s) by reflexivity.
  destruct (Qltb (timestamp_last_run s) t).
  - destruct (pass_run raises t (ticking t s)) as (r & tr & Hrun & Hnb & _).
    rewrite Hrun.
    assert (Hmod : (modify (set_timestamp_last_run t) ;;; pass raises t)
                     (set_locked update_lock true s)
                   = (r, ticking t s, EvCall (update_clock t) :: tr)).
    { unfold bind at 1, modify at 1. fold (ticking t s). rewrite Hrun. reflexivity. }
    destruct r as [u|e|].
    + rewrite (bind_Ok _ _ _ _ _ _ Hmod). unfold release, ticking. simpl.
      destruct s; simpl in *; subst. reflexivity.
    + rewrite (bind_Raise _ _ _ _ _ _ Hmod). reflexivity.
    + contradiction.
  - unfold bind, ret, release. simpl. destruct s; simpl in *; subst. reflexivity.
Qed.

Lemma tick_stale raises t s :
  stale s t ->
  exists tr, _carla_time_tick raises t s = (Ok tt, s, tr) /\ Forall lock_event tr.
Proof.
  intros Hst.
  destruct (is_shutdown (get_binding s)) eqn:Hshut.
  { exists []. split; [|constructor]. rewrite tick_eq.
    rewrite (bind_Ok get _ s s s [] eq_refl). rewrite Hshut. reflexivity. }
  destruct (update_locked s) eqn:Hl.
  { exists []. split; [|constructor]. rewrite tick_eq.
    rewrite (bind_Ok get _ s s s [] eq_refl). rewrite Hshut. cbn [negb app].
    unfold bind, try_acquire. simpl. rewrite Hl. reflexivity. }
  destruct Hst as [H|[H|H]]; try congruence.
  exists [EvAcquire update_lock; EvRelease update_lock]. split.
  - rewrite (tick_open raises t s Hshut Hl), H. reflexivity.
  - constructor; [now left | constructor; [now right | constructor]].
Qed.


Lemma Qltb_irrefl (t : Q) : Qltb t t = false.
Proof. unfold Qltb. apply Z.ltb_irrefl. Qed.



(** After any tick with timestamp [t], a tick with [t] again is stale. *)
Lemma tick_leaves_stale raises t s :
  stale (snd (fst (_carla_time_tick raises t s))) t.
Proof.
  destruct (is_shutdown (get_binding s)) eqn:Hshut.
  { destruct (tick_stale raises t s (or_introl Hshut)) as (tr & -> & _). now left. }
  destruct (update_locked s) eqn:Hl.
  { destruct (tick_stale raises t s (or_intror (or_introl Hl))) as (tr & -> & _).
    right; now left. }
  rewrite (tick_open raises t s Hshut Hl).
  destruct (Qltb (timestamp_last_run s) t) eqn:Hlt.
  - destruct (pass raises t (ticking t s)) as [[[u|e|] s'] tr]; simpl.
    + right; right. apply Qltb_irrefl.
    + right; now left.
    + right; now left.
  - simpl. right; now right.
Qed.

Lemma pass_ok raises t s :
  raises (update_clock t) = None ->
  raises send_msgs = None ->
  NoDup (dict_keys (actors s)) ->
  (forall p, In p (pseudo_actors s) -> raises (pseudo_update p) = None) ->
  (forall k a, In (k, a) (actors s) -> recoverable raises a) ->
  fst (fst (pass raises t s)) = Ok tt.
Proof.
  intros Hc Hf Hnd Hps Hrec. unfold pass.
  rewrite (bind_Ok _ _ _ _ _ _ (invoke_ok raises _ s Hc)).
  rewrite (bind_Ok _ _ _ _ _ _ (update_ok raises s Hnd Hps Hrec)).
  rewrite (invoke_ok raises _ s Hf). reflexivity.
Qed.


(** C4 (amended).  A tick that acquires the update lock releases it before
    it returns, whether or not the timestamp advanced and also when registry
    entities raise a [RuntimeError].  When the clock update, the update pass
    or the flush raises an error that is not caught, the tick ends with that
    error and the lock stays held: there is no release on that path. *)
Theorem tick_releases_unless_error :
  forall (raises : call -> option exn) (t : Q) (s : bridge),
    is_shutdown (get_binding s) = false ->
    update_locked s = false ->
    exists r s1 tr,
      _carla_time_tick raises t s = (r, s1, EvAcquire update_lock :: tr) /\
      match r with
      | Ok _ =>
          update_locked s1 = false /\
          exists tr', tr = tr' ++ [EvRelease update_lock]
      | Raise e =>
          update_locked s1 = true /\
          ~ In (EvRelease update_lock) tr /\
          Qltb (timestamp_last_run s) t = true
      | Blocked => False
      end /\
      (Qltb (timestamp_last_run s) t = false -> r = Ok tt) /\
      (raises (update_clock t) = None ->
       raises send_msgs = None ->
       NoDup (dict_keys (actors s)) ->
       (forall p, In p (pseudo_actors s) -> raises (pseudo_update p) = None) ->
       (forall k a, In (k, a) (actors s) -> recoverable raises a) ->
       r = Ok tt).
Proof.
  intros raises t s Hshut Hfree. rewrite (tick_open raises t s Hshut Hfree).
  destruct (Qltb (timestamp_last_run s) t) eqn:Hlt.
  - destruct (pass_run raises t (ticking t s)) as (r & tr & Hrun & Hnb & Hcw).
    pose proof (pass_ok raises t (ticking t s)) as Hok. rewrite Hrun in *.
    destruct r as [[]|e|]; [| |contradiction].
    + exists (Ok tt), (set_timestamp_last_run t s),
        ((EvCall (update_clock t) :: tr) ++ [EvRelease update_lock]).
      split; [reflexivity|]. split; [|split; [discriminate | reflexivity]].
      split; [exact Hfree|]. eexists. reflexivity.
    + exists (Raise e), (ticking t s), (EvCall (update_clock t) :: tr).
      split; [reflexivity|]. split; [|split; [discriminate|]].
      * split; [reflexivity|]. split; [|reflexivity].
        intros [H|H]; [discriminate|].
        rewrite Forall_forall in Hcw. exact (Hcw _ H).
      * intros Hc Hf Hnd Hps Hrec. exfalso.
        specialize (Hok Hc Hf Hnd Hps Hrec). discriminate Hok.
  - exists (Ok tt), s, [EvRelease update_lock].
    split; [reflexivity|]. split; [|split; reflexivity].
    split; [exact Hfree|]. exists []. reflexivity.
Qed.

Lemma tick_releases_unless_error_witness :
  update_locked (snd (fst (_carla_time_tick camera_destroyed 1 two_sensors))) = false.
Proof.
  destruct (tick_releases_unless_error camera_destroyed 1 two_sensors)
    as (r & s1 & tr & Hrun & Hm & _ & Hok); [reflexivity | reflexivity |].
  rewrite Hrun. simpl.
  assert (Hr : r = Ok tt).
  { apply Hok; try reflexivity.
    - exact two_sensors_NoDup.
    - intros k a Hin e. rewrite two_sensors_actors in Hin.
      destruct Hin as [E|[E|[]]]; inversion E; subst; simpl; intros He;
        inversion He; reflexivity. }
  subst r. exact (proj1 Hm).
Defined.

(** C4 as stated fails when an error leaves the update pass or the flush:
    the tick ends with the error, nothing releases the update lock, and the
    next tick finds it taken. *)
Lemma tick_releases_counterexample :
  (let '(r, s1, tr) := _carla_time_tick map_fails 1 two_sensors in
   r = Raise (Exn RuntimeError "no map") /\
   update_locked s1 = true /\
   tr = [EvAcquire update_lock; EvCall (update_clock 1);
         EvCall (pseudo_update (Map "/map"))] /\
   _carla_time_tick (fun _ => None) 2 s1 = (Ok tt, s1, []))
  /\
  (let '(r, s1, tr) := _carla_time_tick flush_fails 1 two_sensors in
   r = Raise (Exn (OtherException "ROSException" false) "publish failed") /\
   update_locked s1 = true /\
   ~ In (EvRelease update_lock) tr).
Proof.
  split.
  - vm_compute. repeat split.
  - vm_compute. repeat split.
    intros H. repeat (destruct H as [H|H]; [discriminate H|]). exact H.
Qed.






(** ** The reconciliation pass *)

(** *** Removal of an entity whose id is 0 *)

(** C2 (fails on the code).  The registry holds the entity with id 0 and
    the simulator no longer lists it: the pass returns normally, removes
    nothing and logs nothing, so the registry keys are [0] while the
    enumeration has no id.  [if id_to_delete:] (line 153) is false for the
    id 0.  Any other id is removed, as for the camera with id 5. *)
Theorem update_actors_keeps_id_zero :
  forall py : python,
    dict_keys (actors origin_registered) = [0] /\
    (let '(r, s', tr) := update_actors py [] origin_registered in
     r = Ok tt /\ dict_keys (actors s') = [0] /\ tr = []) /\
    (let '(_, s', tr) := update_actors py [lidar_handle] two_sensors in
     dict_keys (actors s') = [6] /\
     tr = [EvLogwarn (RemoveActor 5); EvDelitem 5]).
Proof. intros []; vm_compute; repeat split. Qed.

(** *** Which mutations of the registry happen under the update lock *)

Lemma mutations_locked_app (held : bool) (t1 t2 : list event) :
  mutations_locked held (t1 ++ t2)
  = mutations_locked held t1 && mutations_locked (holds_after held t1) t2.
Proof.
  revert held. induction t1 as [|e t1 IH]; intros held; [reflexivity|].
  destruct e as [[]|[]| | | | | | | |]; simpl; rewrite ?IH; try reflexivity;
    now rewrite andb_assoc.
Qed.

Lemma holds_after_app (held : bool) (t1 t2 : list event) :
  holds_after held (t1 ++ t2) = holds_after (holds_after held t1) t2.
Proof.
  revert held. induction t1 as [|e t1 IH]; intros held; [reflexivity|].
  destruct e as [[]|[]| | | | | | | |]; simpl; now rewrite ?IH.
Qed.

Lemma finish_mutations_locked h p s a s' t held :
  finish h p s = (a, s', t) ->
  mutations_locked held t = true /\ holds_after held t = false.
Proof.
  unfold finish. destruct (is_ego _ _); intros E; inversion E; subst;
    split; reflexivity.
Qed.

(** The factory stores entities under the update lock (lines 216-217). *)
Lemma creates_mutations_locked h s a s' t :
  creates h s a s' t ->
  forall held, mutations_locked held t = true /\ holds_after held t = false.
Proof.
  induction 1 as [h s a s' t _ F | h p pa s a s' t _ _ F
                 | h p pa s s1 t1 a s' t _ _ _ IH F]; intros held.
  - eapply finish_mutations_locked; eauto.
  - eapply finish_mutations_locked; eauto.
  - destruct (IH held) as [M1 H1].
    destruct (finish_mutations_locked _ _ _ _ _ _ false F) as [M2 H2].
    rewrite mutations_locked_app, holds_after_app, M1, H1, M2, H2. now split.
Qed.

(** C7 (fails on the code).  The factory stores an entity under the update
    lock, but the removal loop deletes registry entries without taking it:
    the camera with id 5 has left the simulator, and [del self.actors[5]]
    runs with only the reconciliation lock held. *)
Theorem update_actors_removal_not_locked :
  forall py : python,
    (let '(_, _, tr) := update_actors py [camera_handle; lidar_handle] fresh_bridge in
     mutations_locked false tr = true) /\
    (let '(_, _, tr) := update_actors py [lidar_handle] two_sensors in
     tr = [EvLogwarn (RemoveActor 5); EvDelitem 5] /\
     mutations_locked false tr = false) /\
    (let '(_, _, tr) := _carla_update_child_actors Python2 [lidar_handle] two_sensors in
     tr = [EvAcquire update_child_actors_lock;
           EvLogwarn (RemoveActor 5); EvDelitem 5;
           EvSleep; EvRelease update_child_actors_lock]).
Proof. intros []; vm_compute; repeat split. Qed.

(** *** Removal logging *)

Lemma construct_emits (P : event -> Prop) h p :
  P (EvAcquire update_lock) -> P (EvRelease update_lock) ->
  (forall a, P (EvAppendPseudo a)) ->
  emits P (construct h p).
Proof.
  intros Ha Hr Hp. unfold construct.
  apply emits_bind; [apply emits_get|]. intros s.
  repeat match goal with
         | |- emits _ (if ?c then _ else _) => destruct c
         end;
    try apply emits_ret.
  apply emits_bind; [|intros; apply emits_ret].
  apply emits_with_lock; auto. unfold append_pseudo.
  apply emits_bind; [apply emits_emit; auto | intros; apply emits_modify].
Qed.

Lemma register_emits (P : event -> Prop) h a :
  P (EvAcquire update_lock) -> P (EvRelease update_lock) ->
  (forall w, P (EvLogwarn w)) -> (forall k, P (EvSetitem k)) ->
  emits P (register h a).
Proof.
  intros Ha Hr Hw Hs. unfold register.
  apply emits_bind; [apply emits_emit; auto|]. intros _.
  apply emits_bind; [|intros; apply emits_ret].
  apply emits_with_lock; auto. unfold setitem.
  apply emits_bind; [apply emits_emit; auto | intros; apply emits_modify].
Qed.

Lemma create_actor_emits (P : event -> Prop) :
  P (EvAcquire update_lock) -> P (EvRelease update_lock) ->
  (forall a, P (EvAppendPseudo a)) ->
  (forall w, P (EvLogwarn w)) -> (forall k, P (EvSetitem k)) ->
  forall h, emits P (create_actor h).
Proof.
  intros Ha Hr Hp Hw Hs.
  induction h as [h IH] using carla_actor_parent_ind.
  rewrite create_actor_eq.
  apply emits_bind.
  - destruct (parent h) as [p|] eqn:Hpar; [|apply emits_ret].
    apply emits_bind; [apply emits_get|]. intros s.
    destruct (dict_get (id p) (actors s)); [apply emits_ret|].
    apply emits_bind; [now apply IH | intros; apply emits_ret].
  - intros parent_. apply emits_bind; [now apply construct_emits|].
    intros a. now apply register_emits.
Qed.

Lemma add_new_actors_emits (P : event -> Prop) :
  P (EvAcquire update_lock) -> P (EvRelease update_lock) ->
  (forall a, P (EvAppendPseudo a)) ->
  (forall w, P (EvLogwarn w)) -> (forall k, P (EvSetitem k)) ->
  forall E, emits P (add_new_actors E).
Proof.
  intros Ha Hr Hp Hw Hs E. unfold add_new_actors.
  apply emits_for_each. intros h.
  apply emits_bind; [apply emits_get|]. intros s.
  destruct (negb _); [|apply emits_ret].
  apply emits_bind; [now apply create_actor_emits | intros; apply emits_ret].
Qed.

Lemma logged_removals_app t1 t2 :
  logged_removals t1 -> logged_removals t2 -> logged_removals (t1 ++ t2).
Proof.
  induction 1; intros H2; simpl; [exact H2 | |]; constructor; auto.
Qed.

Lemma logged_removals_Forall t : Forall not_delitem t -> logged_removals t.
Proof. induction 1; constructor; auto. Qed.

Lemma logged_removals_split tr :
  logged_removals tr ->
  forall pre k post,
    tr = pre ++ EvDelitem k :: post ->
    exists pre', pre = pre' ++ [EvLogwarn (RemoveActor k)].
Proof.
  induction 1 as [|k0 tr Htr IH|e tr He Htr IH]; intros pre k post E.
  - destruct pre; discriminate.
  - destruct pre as [|x [|y pre]]; simpl in E.
    + discriminate.
    + inversion E; subst. now exists [].
    + inversion E; subst. destruct (IH pre k post eq_refl) as [pre' ->].
      now exists (EvLogwarn (RemoveActor k0) :: EvDelitem k0 :: pre').
  - destruct pre as [|x pre]; simpl in E; inversion E; subst.
    + exfalso. now apply (He k).
    + destruct (IH pre k post eq_refl) as [pre' ->]. now exists (x :: pre').
Qed.

Lemma remove_loop_logged py ids keys :
  forall changed s, logged_removals (snd (remove_loop py ids keys changed s)).
Proof.
  induction keys as [|k keys IH]; intros changed s; cbn [remove_loop].
  - destruct (keys_is_view py && changed); constructor.
  - destruct (keys_is_view py && changed); [constructor|].
    destruct (truthy _); [|apply IH].
    unfold bind at 1, logwarn at 1, emit at 1.
    unfold bind at 1, delitem at 1, bind at 1, get at 1.
    destruct (dict_in k (actors s)).
    + unfold bind at 1, emit at 1, modify at 1. cbn [app].
      specialize (IH true (set_actors (dict_del k (actors s)) s)).
      destruct (remove_loop py ids keys true _) as [[r s2] t2].
      cbn in *. now constructor.
    + unfold raise. cbn. constructor; [intros k'; discriminate | constructor].
Qed.

Lemma kd_same_actors {A : Type} (m : M A) :
  (forall s, actors (snd (fst (m s))) = actors s) -> keeps_or_deletes m.
Proof. intros H s k Hin. left. now rewrite H. Qed.

Lemma kd_bind {A B : Type} (m : M A) (k : A -> M B) :
  keeps_or_deletes m -> (forall a, keeps_or_deletes (k a)) ->
  keeps_or_deletes (bind m k).
Proof.
  intros Hm Hk s key Hin. unfold bind. specialize (Hm s key Hin).
  destruct (m s) as [[[a|e|] s1] t1]; simpl in *; try exact Hm.
  destruct Hm as [Hm|Hm].
  - specialize (Hk a s1 key Hm). destruct (k a s1) as [[r s2] t2]. simpl in *.
    destruct Hk; [now left | right; apply in_or_app; now right].
  - destruct (k a s1) as [[r s2] t2]. simpl. right. apply in_or_app. now left.
Qed.

Lemma kd_for_each {A : Type} (l : list A) (body : A -> M unit) :
  (forall x, keeps_or_deletes (body x)) -> keeps_or_deletes (for_each l body).
Proof.
  intros H. induction l as [|x l IH]; simpl.
  - now apply kd_same_actors.
  - apply kd_bind; auto.
Qed.

Lemma set_locked_actors l b s : actors (set_locked l b s) = actors s.
Proof. destruct l; reflexivity. Qed.

Lemma kd_with_lock {A : Type} (l : lock_name) (body : M A) :
  keeps_or_deletes body -> keeps_or_deletes (with_lock l body).
Proof.
  intros Hb s k Hin. unfold with_lock, acquire.
  destruct (locked l s); simpl; [now left|].
  specialize (Hb (set_locked l true s) k). rewrite set_locked_actors in Hb.
  specialize (Hb Hin).
  destruct (body (set_locked l true s)) as [[r s2] t2]. simpl in Hb.
  assert (Hrel : actors (snd (fst (release l s2))) = actors s2)
    by (unfold release; destruct (locked l s2); simpl;
        [apply set_locked_actors | reflexivity]).
  destruct (release l s2) as [[r3 s3] t3]. simpl in Hrel.
  destruct r as [a|e|], r3 as [u|e3|]; simpl; rewrite ?Hrel;
    (destruct Hb as [Hb|Hb];
     [now left | right; try (right; apply in_or_app); auto]).
Qed.

Lemma kd_setitem k v : keeps_or_deletes (setitem k v).
Proof.
  intros s key Hin. left. unfold setitem, bind, emit, modify. simpl.
  apply dict_set_keys. now right.
Qed.

Lemma kd_delitem k : keeps_or_deletes (delitem k).
Proof.
  intros s key Hin. unfold delitem, bind, get, emit, modify, raise.
  destruct (dict_in k (actors s)); simpl; [|now left].
  destruct (Z.eq_dec key k) as [->|Hne]; [right; now left | left].
  now apply dict_del_keys_other.
Qed.

Lemma kd_construct h p : keeps_or_deletes (construct h p).
Proof.
  unfold construct. apply kd_bind; [now apply kd_same_actors|]. intros s.
  repeat match goal with
         | |- keeps_or_deletes (if ?c then _ else _) => destruct c
         end;
    try (now apply kd_same_actors).
  apply kd_bind; [|intros; now apply kd_same_actors].
  apply kd_with_lock. now apply kd_same_actors.
Qed.

Lemma kd_register h a : keeps_or_deletes (register h a).
Proof.
  unfold register. apply kd_bind; [now apply kd_same_actors|]. intros _.
  apply kd_bind; [|intros; now apply kd_same_actors].
  apply kd_with_lock. apply kd_setitem.
Qed.

Lemma kd_create_actor : forall h, keeps_or_deletes (create_actor h).
Proof.
  induction h as [h IH] using carla_actor_parent_ind.
  rewrite create_actor_eq. apply kd_bind.
  - destruct (parent h) as [p|] eqn:Hpar; [|now apply kd_same_actors].
    apply kd_bind; [now apply kd_same_actors|]. intros s.
    destruct (dict_get (id p) (actors s)); [now apply kd_same_actors|].
    apply kd_bind; [now apply IH | intros; now apply kd_same_actors].
  - intros parent_. apply kd_bind; [apply kd_construct | intros; apply kd_register].
Qed.

Lemma kd_remove_loop py ids keys :
  forall changed, keeps_or_deletes (remove_loop py ids keys changed).
Proof.
  induction keys as [|k keys IH]; intros changed; cbn [remove_loop].
  - destruct (keys_is_view py && changed); now apply kd_same_actors.
  - destruct (keys_is_view py && changed); [now apply kd_same_actors|].
    destruct (truthy _); [|apply IH].
    apply kd_bind; [now apply kd_same_actors|]. intros _.
    apply kd_bind; [apply kd_delitem | intros; apply IH].
Qed.

Lemma kd_update_actors py E : keeps_or_deletes (update_actors py E).
Proof.
  unfold update_actors, add_new_actors.
  apply kd_bind.
  - apply kd_for_each. intros h.
    apply kd_bind; [now apply kd_same_actors|]. intros s.
    destruct (negb _); [|now apply kd_same_actors].
    apply kd_bind; [apply kd_create_actor | intros; now apply kd_same_actors].
  - intros _. apply kd_bind; [now apply kd_same_actors|]. intros s.
    apply kd_remove_loop.
Qed.

Lemma update_actors_logged py E s :
  logged_removals (snd (update_actors py E s)).
Proof.
  unfold update_actors. unfold bind at 1.
  pose proof (add_new_actors_emits not_delitem) as Hadd.
  specialize (Hadd ltac:(intros k; discriminate) ltac:(intros k; discriminate)
                   ltac:(intros a k; discriminate) ltac:(intros w k; discriminate)
                   ltac:(intros k k'; discriminate) E s).
  destruct (add_new_actors E s) as [[[u|e|] s1] t1]; simpl in *;
    try (now apply logged_removals_Forall).
  unfold bind at 1, get at 1. cbn [app].
  pose proof (remove_loop_logged py (map id E) (dict_keys (actors s1)) false s1) as Hrm.
  destruct (remove_loop py (map id E) (dict_keys (actors s1)) false s1) as [[r s2] t2].
  simpl in *. apply logged_removals_app; [now apply logged_removals_Forall | exact Hrm].
Qed.

(** C9.  In the events of a reconciliation pass every [del self.actors[k]]
    comes directly after the warning [Remove Actor k]; and every id that was
    a key of the registry before the pass and is not one after it has such a
    warning followed by its [del]. *)
Theorem update_actors_logs_removals :
  forall (py : python) (E : list carla_actor) (s : bridge),
    let '(_, s', tr) := update_actors py E s in
    (forall pre k post,
        tr = pre ++ EvDelitem k :: post ->
        exists pre', pre = pre' ++ [EvLogwarn (RemoveActor k)])
    /\
    (forall k,
        In k (dict_keys (actors s)) ->
        ~ In k (dict_keys (actors s')) ->
        exists pre post,
          tr = pre ++ EvLogwarn (RemoveActor k) :: EvDelitem k :: post).
Proof.
  intros py E s.
  pose proof (update_actors_logged py E s) as Hlog.
  pose proof (kd_update_actors py E s) as Hkd.
  destruct (update_actors py E s) as [[r s'] tr]. simpl in *.
  split.
  - intros pre k post Heq. eapply logged_removals_split; eauto.
  - intros k Hin Hout. destruct (Hkd k Hin) as [H|H]; [contradiction|].
    apply in_split in H. destruct H as (pre & post & Heq).
    destruct (logged_removals_split tr Hlog pre k post Heq) as [pre' ->].
    exists pre', post. rewrite Heq, <- app_assoc. reflexivity.
Qed.

Example update_actors_removes_absent_id :
  dict_keys (actors three_props) = [1; 2; 3] /\
  let '(r, s', tr) := update_actors Python2 [prop_handle 1; prop_handle 3] three_props in
  r = Ok tt /\ dict_keys (actors s') = [1; 3] /\
  tr = [EvLogwarn (RemoveActor 2); EvDelitem 2].
Proof. vm_compute. repeat split. Qed.

(** *** Parents are stored before their children *)

Lemma chain_self h : In h (chain h).
Proof. destruct h; simpl. now left. Qed.

Lemma chain_parent h p : parent h = Some p -> incl (chain p) (chain h).
Proof.
  destruct h as [i t a q]; simpl. intros ->. intros x Hx. now right.
Qed.

Lemma parents_first_app H tr1 :
  forall seen tr2,
    parents_first H seen (tr1 ++ tr2) <->
    parents_first H seen tr1 /\ parents_first H (seen_after seen tr1) tr2.
Proof.
  induction tr1 as [|e tr1 IH]; intros seen tr2; simpl; [tauto|].
  destruct e; try apply IH. rewrite IH. tauto.
Qed.

Lemma seen_after_app tr1 :
  forall seen tr2, seen_after seen (tr1 ++ tr2) = seen_after (seen_after seen tr1) tr2.
Proof.
  induction tr1 as [|e tr1 IH]; intros seen tr2; simpl; [reflexivity|].
  destruct e; apply IH.
Qed.

Lemma seen_after_In tr :
  forall seen k, In k (seen_after seen tr) <-> In k seen \/ In (EvSetitem k) tr.
Proof.
  induction tr as [|e tr IH]; intros seen k; simpl; [tauto|].
  destruct e; rewrite IH; simpl;
    try (split; [intros [H|H]; [now left | right; now right]
                | intros [H|[H|H]]; [now left | discriminate | now right]]).
  split.
  - intros [[->|H]|H]; [right; now left | now left | right; now right].
  - intros [H|[H|H]]; [left; now right | inversion H; left; now left | now right].
Qed.

Lemma finish_seen_after h p s a s' t seen :
  finish h p s = (a, s', t) -> seen_after seen t = id h :: seen.
Proof.
  unfold finish. destruct (is_ego _ _); intros E; inversion E; subst; reflexivity.
Qed.

Lemma finish_parents_first H h p s a s' t seen :
  finish h p s = (a, s', t) ->
  (forall h' p', In h' H -> id h' = id h -> parent h' = Some p' -> In (id p') seen) ->
  parents_first H seen t.
Proof.
  unfold finish. destruct (is_ego _ _); intros E Hpar; inversion E; subst; simpl;
    unfold created_warning; repeat split; auto.
Qed.

Lemma creates_parents_first (H : list carla_actor) :
  forall h s a s' t,
    creates h s a s' t ->
    incl (chain h) H ->
    forall seen,
      (forall k, In k (dict_keys (actors s)) -> In k seen) ->
      (ids_identify H -> parents_first H seen t) /\
      (forall k, In k (dict_keys (actors s')) -> In k (seen_after seen t)) /\
      In (id h) (dict_keys (actors s')) /\
      (forall k, In k (dict_keys (actors s)) -> In k (dict_keys (actors s'))).
Proof.
  induction 1 as [h s a s' t Hp F | h p pa s a s' t Hp Hget F
                 | h p pa s s1 t1 a s' t Hp Hget Hc IH F];
    intros Hincl seen Hseen.
  - assert (Hh : In h H) by (apply Hincl, chain_self).
    pose proof (finish_seen_after h None s a s' t seen F) as Hsa.
    pose proof (finish_parents_first H h None s a s' t seen F) as Hpf.
    apply finish_inv in F. destruct F as (_ & A & _).
    rewrite Hsa, A. repeat split; auto.
    + intros Hids. apply Hpf.
      intros h' p' Hin Hid Hpar. rewrite (Hids h' h Hin Hh Hid) in Hpar. congruence.
    + intros k Hk. apply dict_set_keys in Hk. destruct Hk as [->|Hk];
        [now left | right; auto].
    + apply dict_set_keys. now left.
    + intros k Hk. apply dict_set_keys. now right.
  - assert (Hh : In h H) by (apply Hincl, chain_self).
    pose proof (finish_seen_after h (Some pa) s a s' t seen F) as Hsa.
    pose proof (finish_parents_first H h (Some pa) s a s' t seen F) as Hpf.
    apply finish_inv in F. destruct F as (_ & A & _).
    rewrite Hsa, A. repeat split; auto.
    + intros Hids. apply Hpf.
      intros h' p' Hin Hid Hpar. rewrite (Hids h' h Hin Hh Hid) in Hpar.
      assert (p' = p) by congruence. subst p'.
      apply Hseen. eapply dict_get_Some_In; eauto.
    + intros k Hk. apply dict_set_keys in Hk. destruct Hk as [->|Hk];
        [now left | right; auto].
    + apply dict_set_keys. now left.
    + intros k Hk. apply dict_set_keys. now right.
  - assert (Hh : In h H) by (apply Hincl, chain_self).
    assert (Hinclp : incl (chain p) H)
      by (intros x Hx; apply Hincl; eapply chain_parent; eauto).
    destruct (IH Hinclp seen Hseen) as (Hpf1 & Hseen1 & Hpin & Hgrow1).
    pose proof (finish_seen_after h (Some pa) s1 a s' t (seen_after seen t1) F) as Hsa.
    pose proof (finish_parents_first H h (Some pa) s1 a s' t (seen_after seen t1) F)
      as Hpf.
    apply finish_inv in F. destruct F as (_ & A & _).
    rewrite seen_after_app, Hsa, A. repeat split.
    + intros Hids. apply parents_first_app. split; [now apply Hpf1|]. apply Hpf.
      intros h' p' Hin Hid Hpar. rewrite (Hids h' h Hin Hh Hid) in Hpar.
      assert (p' = p) by congruence. subst p'. now apply Hseen1.
    + intros k Hk. apply dict_set_keys in Hk. destruct Hk as [->|Hk];
        [now left | right; auto].
    + apply dict_set_keys. now left.
    + intros k Hk. apply dict_set_keys. right. auto.
Qed.

Lemma dict_set_NoDup k v d :
  NoDup (dict_keys d) -> NoDup (dict_keys (dict_set k v d)).
Proof.
  induction d as [|[k0 v0] d IH]; simpl; intros Hnd.
  - repeat constructor. intros [].
  - inversion Hnd as [|? ? Hnotin Hnd']; subst.
    destruct (Z.eqb_spec k k0) as [->|Hne]; simpl; [exact Hnd|].
    constructor; [|auto].
    intros Hin. apply dict_set_keys in Hin. destruct Hin; [congruence | contradiction].
Qed.

Lemma dict_del_NoDup k d :
  NoDup (dict_keys d) -> NoDup (dict_keys (dict_del k d)).
Proof.
  induction d as [|[k0 v0] d IH]; simpl; intros Hnd; [exact Hnd|].
  inversion Hnd as [|? ? Hnotin Hnd']; subst.
  destruct (Z.eqb_spec k k0); simpl; [exact Hnd'|].
  constructor; [|auto]. intros Hin. apply Hnotin. eapply dict_del_keys_incl; eauto.
Qed.

Lemma creates_NoDup h s a s' t :
  creates h s a s' t ->
  NoDup (dict_keys (actors s)) -> NoDup (dict_keys (actors s')).
Proof.
  induction 1 as [h s a s' t _ F | h p pa s a s' t _ _ F
                 | h p pa s s1 t1 a s' t _ _ _ IH F]; intros Hnd;
    apply finish_inv in F; destruct F as (_ & A & _); rewrite A;
    apply dict_set_NoDup; auto.
Qed.

Lemma add_new_actors_cons h E :
  add_new_actors (h :: E) =
    ((s <- get ;;
      if negb (mem (id h) (dict_keys (actors s)))
      then create_actor h ;;; ret tt
      else ret tt) ;;;
     add_new_actors E).
Proof. reflexivity. Qed.

(** The creation loop, from a state with the update lock free. *)
Lemma add_new_actors_run (H : list carla_actor) :
  forall E,
    incl (handles E) H ->
    forall s seen,
      update_locked s = false ->
      (forall k, In k (dict_keys (actors s)) -> In k seen) ->
      exists s' t,
        add_new_actors E s = (Ok tt, s', t) /\
        update_locked s' = false /\
        (ids_identify H -> parents_first H seen t) /\
        (forall k, In k (dict_keys (actors s')) -> In k (seen_after seen t)) /\
        (forall h, In h E -> In (id h) (dict_keys (actors s'))) /\
        (forall k, In k (dict_keys (actors s)) -> In k (dict_keys (actors s'))) /\
        (NoDup (dict_keys (actors s)) -> NoDup (dict_keys (actors s'))).
Proof.
  induction E as [|h E IH]; intros Hincl s seen Hfree Hseen.
  - exists s, []. repeat split; auto. intros h [].
  - assert (HinclE : incl (handles E) H).
    { intros x Hx. apply Hincl. unfold handles. simpl. apply in_or_app. now right. }
    assert (Hinclh : incl (chain h) H).
    { intros x Hx. apply Hincl. unfold handles. simpl. apply in_or_app. now left. }
    rewrite add_new_actors_cons.
    destruct (mem (id h) (dict_keys (actors s))) eqn:Hmem.
    + destruct (IH HinclE s seen Hfree Hseen)
        as (s' & t & Hrun & Hfree' & Hpf & Hseen' & Hall & Hgrow & Hnd).
      exists s', t. split.
      { rewrite (bind_Ok _ _ s s tt []);
          [now rewrite Hrun|].
        rewrite (bind_Ok get _ s s s [] eq_refl). now rewrite Hmem. }
      repeat split; auto.
      intros h' [<-|Hin]; [|auto]. apply Hgrow. now apply mem_In.
    + destruct (create_actor_creates h s Hfree) as (a & s1 & t1 & Hrun1 & Hc).
      destruct (creates_parents_first H _ _ _ _ _ Hc Hinclh seen Hseen)
        as (Hpf1 & Hseen1 & Hin1 & Hgrow1).
      assert (Hfree1 : update_locked s1 = false)
        by (rewrite (creates_update_locked _ _ _ _ _ Hc); exact Hfree).
      destruct (IH HinclE s1 (seen_after seen t1) Hfree1 Hseen1)
        as (s' & t & Hrun & Hfree' & Hpf & Hseen' & Hall & Hgrow & Hnd).
      exists s', (t1 ++ t). split.
      { rewrite (bind_Ok _ _ s s1 tt t1); [now rewrite Hrun|].
        rewrite (bind_Ok get _ s s s [] eq_refl). rewrite Hmem. cbn [negb app].
        rewrite (bind_Ok _ _ _ _ _ _ Hrun1). unfold ret. now rewrite app_nil_r. }
      split; [exact Hfree'|].
      split; [intros Hids; apply parents_first_app; split; auto|].
      split; [now rewrite seen_after_app|].
      split; [intros h' [<-|Hin]; auto|].
      split; [auto|].
      intros Hnd0. apply Hnd. eapply creates_NoDup; eauto.
Qed.

(** The removal loop: it never waits, stores nothing, and keeps the keys
    that the enumeration lists. *)
Lemma remove_loop_run py ids keys :
  forall changed s,
    let '(r, s', t) := remove_loop py ids keys changed s in
    r <> Blocked /\
    Forall not_setitem t /\
    (forall k, In k ids -> In k (dict_keys (actors s)) -> In k (dict_keys (actors s'))).
Proof.
  induction keys as [|k keys IH]; intros changed s; cbn [remove_loop].
  - destruct (keys_is_view py && changed); cbn;
      (split; [discriminate | split; [constructor | auto]]).
  - destruct (keys_is_view py && changed);
      [cbn; split; [discriminate | split; [constructor | auto]]|].
    destruct (mem k ids) eqn:Hmem; cbn [negb truthy]; [apply IH|].
    destruct (negb (k =? 0)); [|apply IH].
    unfold bind at 1, logwarn at 1, emit at 1.
    unfold bind at 1, delitem at 1, bind at 1, get at 1.
    destruct (dict_in k (actors s)).
    + unfold bind at 1, emit at 1, modify at 1. cbn [app].
      specialize (IH true (set_actors (dict_del k (actors s)) s)).
      destruct (remove_loop py ids keys true _) as [[r s2] t2].
      destruct IH as (Hr & Ht & Hkeep). cbn.
      split; [exact Hr|]. split.
      * constructor; [intros k'; discriminate|].
        constructor; [intros k'; discriminate | exact Ht].
      * intros k' Hin Hk'. apply Hkeep; [exact Hin|]. cbn.
        apply dict_del_keys_other; [|exact Hk'].
        intros ->. apply mem_notIn in Hmem. contradiction.
    + unfold raise. cbn. split; [discriminate|]. split; [|auto].
      constructor; [intros k'; discriminate | constructor].
Qed.

(** In Python 2 the loop runs over a copy of the keys and ends normally. *)
Lemma remove_loop_Python2 ids keys :
  forall changed s,
    NoDup keys ->
    (forall k, In k keys -> In k (dict_keys (actors s))) ->
    fst (fst (remove_loop Python2 ids keys changed s)) = Ok tt.
Proof.
  induction keys as [|k keys IH]; intros changed s Hnd Hin; cbn [remove_loop];
    cbn [keys_is_view andb]; [reflexivity|].
  inversion Hnd as [|? ? Hnotin Hnd']; subst.
  assert (Hrest : forall k', In k' keys -> In k' (dict_keys (actors s)))
    by (intros; apply Hin; now right).
  destruct (truthy _); [|now apply IH].
  unfold bind at 1, logwarn at 1, emit at 1.
  unfold bind at 1, delitem at 1, bind at 1, get at 1.
  assert (Hk : dict_in k (actors s) = true) by (apply dict_in_In, Hin; now left).
  rewrite Hk. unfold bind at 1, emit at 1, modify at 1. cbn [app].
  specialize (IH true (set_actors (dict_del k (actors s)) s) Hnd').
  destruct (remove_loop Python2 ids keys true _) as [[r s2] t2]. cbn in *.
  apply IH. intros k' Hk'. apply dict_del_keys_other; [|auto].
  intros ->. contradiction.
Qed.

Lemma dict_del_keys_iff k d k' :
  NoDup (dict_keys d) ->
  (In k' (dict_keys (dict_del k d)) <-> In k' (dict_keys d) /\ k' <> k).
Proof.
  induction d as [|[k0 v0] d IH]; simpl; intros Hnd; [tauto|].
  inversion Hnd as [|? ? Hnotin Hnd']; subst.
  destruct (Z.eqb_spec k k0) as [->|Hne]; simpl.
  - split.
    + intros Hin. split; [now right | intros ->; contradiction].
    + intros [[E|Hin] Hne]; [congruence | exact Hin].
  - rewrite (IH Hnd'). split.
    + intros [<-|[Hin Hk]]; [split; [now left | congruence] | split; [now right | exact Hk]].
    + intros [[E|Hin] Hk]; [now left | right; now split].
Qed.

(** In Python 2 the removal loop deletes exactly the visited keys that the
    enumeration does not list and that are not 0. *)
Lemma remove_loop_Python2_keys ids keys :
  forall changed s,
    NoDup keys ->
    NoDup (dict_keys (actors s)) ->
    (forall k, In k keys -> In k (dict_keys (actors s))) ->
    let '(_, s', _) := remove_loop Python2 ids keys changed s in
    forall k,
      In k (dict_keys (actors s')) <->
      In k (dict_keys (actors s)) /\ (In k keys -> In k ids \/ k = 0).
Proof.
  induction keys as [|k0 keys IH]; intros changed s Hnd Hnds Hin; cbn [remove_loop];
    cbn [keys_is_view andb].
  - cbn. intros k. split; [intros H; split; [exact H | intros []] | tauto].
  - inversion Hnd as [|? ? Hnotin Hnd']; subst.
    assert (Hrest : forall k', In k' keys -> In k' (dict_keys (actors s)))
      by (intros; apply Hin; now right).
    destruct (mem k0 ids) eqn:Hmem; cbn [negb truthy].
    { specialize (IH changed s Hnd' Hnds Hrest).
      destruct (remove_loop Python2 ids keys changed s) as [[r s2] t2].
      intros k. rewrite IH. apply mem_In in Hmem. split.
      - intros [H1 H2]. split; [exact H1|]. intros [<-|Hk]; [now left | auto].
      - intros [H1 H2]. split; [exact H1|]. intros Hk. apply H2. now right. }
    destruct (Z.eqb_spec k0 0) as [->|Hnz]; cbn [negb].
    { specialize (IH changed s Hnd' Hnds Hrest).
      destruct (remove_loop Python2 ids keys changed s) as [[r s2] t2].
      intros k. rewrite IH. split.
      - intros [H1 H2]. split; [exact H1|]. intros [<-|Hk]; [now right | auto].
      - intros [H1 H2]. split; [exact H1|]. intros Hk. apply H2. now right. }
    unfold bind at 1, logwarn at 1, emit at 1.
    unfold bind at 1, delitem at 1, bind at 1, get at 1.
    assert (Hk0 : dict_in k0 (actors s) = true) by (apply dict_in_In, Hin; now left).
    rewrite Hk0. unfold bind at 1, emit at 1, modify at 1. cbn [app].
    specialize (IH true (set_actors (dict_del k0 (actors s)) s) Hnd').
    cbn [actors set_actors] in IH.
    specialize (IH (dict_del_NoDup k0 _ Hnds)).
    assert (Hrest' : forall k', In k' keys -> In k' (dict_keys (dict_del k0 (actors s)))).
    { intros k' Hk'. apply dict_del_keys_other; [|auto]. intros ->. contradiction. }
    specialize (IH Hrest').
    destruct (remove_loop Python2 ids keys true _) as [[r s2] t2]. cbn.
    intros k. rewrite IH, (dict_del_keys_iff k0 (actors s) k Hnds).
    apply mem_notIn in Hmem. split.
    + intros [[H1 Hne] H2]. split; [exact H1|].
      intros [E|Hk]; [congruence | auto].
    + intros [H1 H2]. split; [split; [exact H1|] |].
      * intros ->. destruct (H2 (or_introl eq_refl)); contradiction.
      * intros Hk. apply H2. now right.
Qed.

(** Reconciliation in Python 2, with the update lock free: the pass returns
    normally, every listed id is a key afterwards, and a key other than 0 is
    a listed id. *)
Lemma update_actors_Python2_keys E s :
  update_locked s = false ->
  NoDup (dict_keys (actors s)) ->
  let '(r, s', _) := update_actors Python2 E s in
  r = Ok tt /\
  (forall k, In k (map id E) -> In k (dict_keys (actors s'))) /\
  (forall k, k <> 0 -> In k (dict_keys (actors s')) -> In k (map id E)).
Proof.
  intros Hfree Hnd0.
  destruct (add_new_actors_run (handles E) E (incl_refl _) s
              (dict_keys (actors s)) Hfree (fun k H => H))
    as (s1 & t1 & Hrun & Hfree1 & _ & _ & Hall & _ & Hnd).
  specialize (Hnd Hnd0).
  unfold update_actors.
  rewrite (bind_Ok _ _ _ _ _ _ Hrun).
  rewrite (bind_Ok get _ s1 s1 s1 [] eq_refl). cbn [app].
  pose proof (remove_loop_Python2 (map id E) (dict_keys (actors s1)) false s1
                Hnd (fun k H => H)) as Hok.
  pose proof (remove_loop_Python2_keys (map id E) (dict_keys (actors s1)) false s1
                Hnd Hnd (fun k H => H)) as Hkeys.
  destruct (remove_loop Python2 (map id E) (dict_keys (actors s1)) false s1)
    as [[r s2] t2].
  cbn in Hok. split; [exact Hok|]. split.
  - intros k Hk. apply Hkeys. split; [|now left].
    apply in_map_iff in Hk. destruct Hk as (h & <- & Hh). now apply Hall.
  - intros k Hnz Hk. apply Hkeys in Hk. destruct Hk as [Hk1 Hk2].
    destruct (Hk2 Hk1); [assumption | contradiction].
Qed.

Lemma parents_first_split H c p :
  In c H -> parent c = Some p ->
  forall tr seen,
    parents_first H seen tr ->
    ~ In (id p) seen ->
    In (EvSetitem (id c)) tr ->
    exists pre mid post,
      tr = pre ++ EvSetitem (id p) :: mid ++ EvSetitem (id c) :: post.
Proof.
  intros Hc Hp. induction tr as [|e tr IH]; intros seen Hpf Hnot Hin; [destruct Hin|].
  assert (Hother : (forall k, e <> EvSetitem k) -> parents_first H seen tr ->
                   exists pre mid post,
                     e :: tr = pre ++ EvSetitem (id p) :: mid ++ EvSetitem (id c) :: post).
  { intros Hne Hpf'. destruct Hin as [E|Hin]; [exfalso; now apply (Hne (id c))|].
    destruct (IH seen Hpf' Hnot Hin) as (pre & mid & post & ->).
    now exists (e :: pre), mid, post. }
  destruct e; try (apply Hother; [intros k; discriminate | exact Hpf]).
  clear Hother. simpl in Hpf. destruct Hpf as [Hpar Hpf].
  destruct (Z.eq_dec actor_id (id c)) as [->|Hnc].
  { exfalso. apply Hnot. now apply (Hpar c p). }
  destruct Hin as [E|Hin]; [congruence|].
  destruct (Z.eq_dec actor_id (id p)) as [->|Hnp].
  - apply in_split in Hin. destruct Hin as (mid & post & ->).
    now exists [], mid, post.
  - destruct (IH (actor_id :: seen) Hpf) as (pre & mid & post & ->); auto.
    + intros [E|I]; [congruence | contradiction].
    + now exists (EvSetitem actor_id :: pre), mid, post.
Qed.

(** C6 (amended).  A reconciliation pass that starts with the update lock
    free, over an enumeration whose ids identify its handles: if the
    enumeration lists an entity [c] that is not yet registered, whose parent
    [p] is not yet registered either, and also lists the parent's id, then
    after the pass both have a registry entry and the parent's was stored
    before the child's, in whatever order the enumeration lists them.  The
    pass never waits for a lock, and in Python 2 it returns normally. *)
Theorem update_actors_parent_first :
  forall (py : python) (E : list carla_actor) (s : bridge) (c p : carla_actor),
    update_locked s = false ->
    ids_identify (handles E) ->
    In c E ->
    parent c = Some p ->
    dict_in (id c) (actors s) = false ->
    dict_in (id p) (actors s) = false ->
    In (id p) (map id E) ->
    let '(r, s', tr) := update_actors py E s in
    r <> Blocked /\
    (py = Python2 -> NoDup (dict_keys (actors s)) -> r = Ok tt) /\
    dict_in (id p) (actors s') = true /\
    dict_in (id c) (actors s') = true /\
    exists pre mid post,
      tr = pre ++ EvSetitem (id p) :: mid ++ EvSetitem (id c) :: post.
Proof.
  intros py E s c p Hfree Hids Hc Hp Hcnew Hpnew HpE.
  destruct (add_new_actors_run (handles E) E (incl_refl _) s
              (dict_keys (actors s)) Hfree (fun k H => H))
    as (s1 & t1 & Hrun & Hfree1 & Hpf & Hseen & Hall & Hgrow & Hnd).
  specialize (Hpf Hids).
  unfold update_actors.
  rewrite (bind_Ok _ _ _ _ _ _ Hrun).
  rewrite (bind_Ok get _ s1 s1 s1 [] eq_refl). cbn [app].
  pose proof (remove_loop_run py (map id E) (dict_keys (actors s1)) false s1) as Hrm.
  pose proof (remove_loop_Python2 (map id E) (dict_keys (actors s1)) false s1) as Hpy2.
  destruct (remove_loop py (map id E) (dict_keys (actors s1)) false s1)
    as [[r s2] t2] eqn:Erm.
  destruct Hrm as (Hnb & _ & Hkeep).
  assert (HcE : In (id c) (map id E)) by now apply in_map.
  assert (Hlisted : forall k, In k (map id E) -> In k (dict_keys (actors s2))).
  { intros k Hk. apply Hkeep; [exact Hk|].
    apply in_map_iff in Hk. destruct Hk as (h & <- & Hh). now apply Hall. }
  split; [exact Hnb|]. split; [|split; [|split]].
  - intros -> Hnd0. rewrite Erm in Hpy2. apply Hpy2; auto.
  - apply dict_in_In. now apply Hlisted.
  - apply dict_in_In. now apply Hlisted.
  - assert (HcH : In c (handles E)).
    { unfold handles. apply in_flat_map. exists c. split; [exact Hc | apply chain_self]. }
    assert (Hnotp : ~ In (id p) (dict_keys (actors s))).
    { intros H. apply dict_in_In in H. congruence. }
    assert (Hnotc : ~ In (id c) (dict_keys (actors s))).
    { intros H. apply dict_in_In in H. congruence. }
    assert (Hset : In (EvSetitem (id c)) t1).
    { specialize (Hseen (id c) (Hall c Hc)). apply seen_after_In in Hseen.
      destruct Hseen; [contradiction | assumption]. }
    destruct (parents_first_split (handles E) c p HcH Hp t1 _ Hpf Hnotp Hset)
      as (pre & mid & post & ->).
    exists pre, mid, (post ++ t2).
    rewrite <- !app_assoc. cbn [app]. rewrite <- !app_assoc. reflexivity.
Qed.

Lemma update_actors_parent_first_witness :
  let '(r, s', tr) :=
    update_actors Python2 [depth_camera_handle; car_handle] fresh_bridge in
  r <> Blocked /\
  (Python2 = Python2 -> NoDup (dict_keys (actors fresh_bridge)) -> r = Ok tt) /\
  dict_in (id car_handle) (actors s') = true /\
  dict_in (id depth_camera_handle) (actors s') = true /\
  exists pre mid post,
    tr = pre ++ EvSetitem (id car_handle) :: mid
         ++ EvSetitem (id depth_camera_handle) :: post.
Proof.
  apply (update_actors_parent_first Python2 [depth_camera_handle; car_handle]
           fresh_bridge depth_camera_handle car_handle); try reflexivity.
  - intros h1 h2 H1 H2 Hid. simpl in H1, H2.
    destruct H1 as [<-|[<-|[<-|[]]]]; destruct H2 as [<-|[<-|[<-|[]]]];
      try reflexivity; discriminate Hid.
  - now left.
  - simpl. now right; left.
Defined.

(** C6 as stated fails when the simulator does not list the parent: the
    parent is created for the child's sake and removed again by the same pass
    (Python 2).  From then on the child is registered without its parent, and
    a later pass does not create the parent at all; if the parent is listed
    later, it is stored after the child. *)
Lemma update_actors_parent_first_counterexample :
  (let '(r, s', tr) := update_actors Python2 [depth_camera_handle] fresh_bridge in
   r = Ok tt /\
   dict_in (id car_handle) (actors fresh_bridge) = false /\
   dict_in (id car_handle) (actors s') = false /\
   dict_keys (actors s') = [2] /\
   In (EvDelitem (id car_handle)) tr)
  /\ parent_after_child Python2
  /\ parent_after_child Python3.
Proof.
  split; [|split].
  - vm_compute. repeat split. right. right. right. right. right. right. right. right.
    right. now left.
  - vm_compute; repeat split;
      intros H; repeat (destruct H as [H|H]; [discriminate H|]); exact H.
  - vm_compute; repeat split;
      intros H; repeat (destruct H as [H|H]; [discriminate H|]); exact H.
Qed.

(** ** More on the reconciliation pass *)

(** *** State properties kept by the pass *)

Lemma remove_loop_invariant (I : bridge -> Prop) :
  (forall k s, I s -> I (set_actors (dict_del k (actors s)) s)) ->
  forall py ids keys changed s,
    I s -> I (snd (fst (remove_loop py ids keys changed s))).
Proof.
  intros Hdel py ids keys.
  induction keys as [|k keys IH]; intros changed s Hs; cbn [remove_loop].
  - destruct (keys_is_view py && changed); exact Hs.
  - destruct (keys_is_view py && changed); [exact Hs|].
    destruct (truthy _); [|now apply IH].
    unfold bind at 1, logwarn at 1, emit at 1.
    unfold bind at 1, delitem at 1, bind at 1, get at 1.
    destruct (dict_in k (actors s)).
    + unfold bind at 1, emit at 1, modify at 1. cbn [app].
      specialize (IH true _ (Hdel k s Hs)).
      destruct (remove_loop py ids keys true _) as [[r s2] t2]. exact IH.
    + exact Hs.
Qed.

Lemma add_new_actors_invariant (I : bridge -> Prop) :
  (forall h s a s' t, creates h s a s' t -> I s -> I s') ->
  forall E s,
    update_locked s = false -> I s ->
    I (snd (fst (add_new_actors E s))).
Proof.
  intros Hc. induction E as [|h E IH]; intros s Hfree Hs; [exact Hs|].
  rewrite add_new_actors_cons.
  destruct (mem (id h) (dict_keys (actors s))) eqn:Hmem.
  - rewrite (bind_Ok _ _ s s tt []).
    + specialize (IH s Hfree Hs).
      destruct (add_new_actors E s) as [[r s2] t2]. exact IH.
    + rewrite (bind_Ok get _ s s s [] eq_refl). now rewrite Hmem.
  - destruct (create_actor_creates h s Hfree) as (a & s1 & t1 & Hrun1 & Hcr).
    assert (Hfree1 : update_locked s1 = false)
      by (rewrite (creates_update_locked _ _ _ _ _ Hcr); exact Hfree).
    rewrite (bind_Ok _ _ s s1 tt t1).
    + specialize (IH s1 Hfree1 (Hc _ _ _ _ _ Hcr Hs)).
      destruct (add_new_actors E s1) as [[r s2] t2]. exact IH.
    + rewrite (bind_Ok get _ s s s [] eq_refl). rewrite Hmem. cbn [negb app].
      rewrite (bind_Ok _ _ _ _ _ _ Hrun1). unfold ret. now rewrite app_nil_r.
Qed.

Lemma add_new_actors_unlocked E s :
  update_locked s = false ->
  exists s1 t1,
    add_new_actors E s = (Ok tt, s1, t1) /\ update_locked s1 = false.
Proof.
  intros Hfree.
  destruct (add_new_actors_run (handles E) E (incl_refl _) s
              (dict_keys (actors s)) Hfree (fun k H => H))
    as (s1 & t1 & Hrun & Hfree1 & _).
  now exists s1, t1.
Qed.

(** A property of the bridge that creating an entity and deleting a
    registry entry keep is kept by the whole pass, however it ends. *)
Lemma update_actors_invariant (I : bridge -> Prop) :
  (forall h s a s' t, creates h s a s' t -> I s -> I s') ->
  (forall k s, I s -> I (set_actors (dict_del k (actors s)) s)) ->
  forall py E s,
    update_locked s = false -> I s ->
    I (snd (fst (update_actors py E s))).
Proof.
  intros Hc Hdel py E s Hfree Hs.
  pose proof (add_new_actors_invariant I Hc E s Hfree Hs) as H1.
  destruct (add_new_actors_unlocked E s Hfree) as (s1 & t1 & Hrun & _).
  rewrite Hrun in H1. cbn in H1.
  unfold update_actors.
  rewrite (bind_Ok _ _ _ _ _ _ Hrun).
  rewrite (bind_Ok get _ s1 s1 s1 [] eq_refl). cbn [app].
  pose proof (remove_loop_invariant I Hdel py (map id E) (dict_keys (actors s1))
                false s1 H1) as H2.
  destruct (remove_loop py (map id E) (dict_keys (actors s1)) false s1)
    as [[r s2] t2]. exact H2.
Qed.

Lemma creates_same_frame h s a s' t : creates h s a s' t -> same_frame s s'.
Proof.
  intros Hc. destruct (creates_frame _ _ _ _ _ Hc) as (B & T & L).
  pose proof (creates_update_locked _ _ _ _ _ Hc) as U.
  now repeat split.
Qed.

Lemma update_actors_same_frame py E s :
  update_locked s = false -> same_frame s (snd (fst (update_actors py E s))).
Proof.
  intros Hfree.
  apply (update_actors_invariant (same_frame s)); [| |exact Hfree|].
  - intros h s0 a s' t Hc (B & T & L & U).
    destruct (creates_same_frame _ _ _ _ _ Hc) as (B' & T' & L' & U').
    repeat split; congruence.
  - intros k s0 H. exact H.
  - now repeat split.
Qed.

Lemma dict_get_Some_pair k d a : dict_get k d = Some a -> In (k, a) d.
Proof.
  induction d as [|[k0 v0] d IH]; simpl; [discriminate|].
  destruct (Z.eqb_spec k k0) as [->|Hne].
  - intros E. inversion E; subst. now left.
  - intros E. right. auto.
Qed.

Lemma dict_set_pairs k v d k' v' :
  In (k', v') (dict_set k v d) -> (k', v') = (k, v) \/ In (k', v') d.
Proof.
  induction d as [|[k0 v0] d IH]; simpl.
  - intros [E|[]]. left. now symmetry.
  - destruct (Z.eqb_spec k k0) as [->|Hne]; simpl.
    + intros [E|H]; [left; now symmetry | right; now right].
    + intros [E|H]; [right; now left|]. destruct (IH H); [now left | right; now right].
Qed.

Lemma dict_del_pairs k d k' v' : In (k', v') (dict_del k d) -> In (k', v') d.
Proof.
  induction d as [|[k0 v0] d IH]; simpl; [tauto|].
  destruct (Z.eqb_spec k k0); simpl; intuition.
Qed.

Lemma well_keyed_set k a d :
  get_id a = k -> well_keyed d -> well_keyed (dict_set k a d).
Proof.
  intros Ha Hd k' a' Hin. apply dict_set_pairs in Hin.
  destruct Hin as [E|Hin]; [inversion E; subst; reflexivity | now apply Hd].
Qed.

Lemma well_keyed_del k d : well_keyed d -> well_keyed (dict_del k d).
Proof. intros Hd k' a' Hin. apply Hd. eapply dict_del_pairs; eauto. Qed.

Lemma creates_well_keyed h s a s' t :
  creates h s a s' t -> well_keyed (actors s) -> well_keyed (actors s').
Proof.
  induction 1 as [h s a s' t _ F | h p pa s a s' t _ _ F
                 | h p pa s s1 t1 a s' t _ _ _ IH F]; intros Hwk;
    apply finish_inv in F; destruct F as (-> & A & _); rewrite A;
    apply well_keyed_set; auto.
Qed.

(** *** Python 2: the pass brings the registry into agreement *)

(** X1.  In Python 2, from a bridge whose update lock is free and whose
    registry is a dictionary keyed by entity id, a reconciliation pass over
    any enumeration returns normally; afterwards every listed id is
    registered, every registered id other than 0 is listed, the registry is
    still keyed by entity id, and the binding, the last timestamp and both
    locks are as before. *)
Theorem update_actors_Python2_agrees :
  forall (E : list carla_actor) (s : bridge),
    update_locked s = false ->
    NoDup (dict_keys (actors s)) ->
    well_keyed (actors s) ->
    let '(r, s', _) := update_actors Python2 E s in
    r = Ok tt /\
    agrees (map id E) (actors s') /\
    NoDup (dict_keys (actors s')) /\
    well_keyed (actors s') /\
    same_frame s s'.
Proof.
  intros E s Hfree Hnd Hwk.
  pose proof (update_actors_Python2_keys E s Hfree Hnd) as Hkeys.
  pose proof (update_actors_invariant (fun b => NoDup (dict_keys (actors b)))
                (fun h s0 a s' t Hc => creates_NoDup h s0 a s' t Hc)
                (fun k s0 H => dict_del_NoDup k (actors s0) H)
                Python2 E s Hfree Hnd) as Hnd'.
  pose proof (update_actors_invariant (fun b => well_keyed (actors b))
                (fun h s0 a s' t Hc => creates_well_keyed h s0 a s' t Hc)
                (fun k s0 H => well_keyed_del k (actors s0) H)
                Python2 E s Hfree Hwk) as Hwk'.
  pose proof (update_actors_same_frame Python2 E s Hfree) as Hfr.
  destruct (update_actors Python2 E s) as [[r s'] t]. cbn in *.
  destruct Hkeys as (Hr & Hl & Hz).
  repeat split; auto; apply Hfr.
Qed.

Lemma update_actors_Python2_agrees_witness :
  let '(r, s', _) := update_actors Python2 [lidar_handle; car_handle] two_sensors in
  r = Ok tt /\
  agrees (map id [lidar_handle; car_handle]) (actors s') /\
  NoDup (dict_keys (actors s')) /\
  well_keyed (actors s') /\
  same_frame two_sensors s'.
Proof.
  apply (update_actors_Python2_agrees [lidar_handle; car_handle] two_sensors).
  - reflexivity.
  - exact two_sensors_NoDup.
  - intros k a Hin. rewrite two_sensors_actors in Hin.
    destruct Hin as [E|[E|[]]]; inversion E; reflexivity.
Defined.

(** *** A registry in agreement is left alone *)

Lemma add_new_actors_noop E s :
  (forall h, In h E -> In (id h) (dict_keys (actors s))) ->
  add_new_actors E s = (Ok tt, s, []).
Proof.
  induction E as [|h E IH]; intros Hall; [reflexivity|].
  rewrite add_new_actors_cons.
  rewrite (bind_Ok _ _ s s tt []).
  - rewrite IH by (intros; apply Hall; now right). reflexivity.
  - rewrite (bind_Ok get _ s s s [] eq_refl).
    assert (Hm : mem (id h) (dict_keys (actors s)) = true)
      by (apply mem_In, Hall; now left).
    now rewrite Hm.
Qed.

Lemma remove_loop_noop py ids keys s :
  (forall k, In k keys -> k <> 0 -> In k ids) ->
  remove_loop py ids keys false s = (Ok tt, s, []).
Proof.
  induction keys as [|k keys IH]; intros Hall; cbn [remove_loop];
    rewrite andb_false_r; [reflexivity|].
  assert (Hk : truthy (if negb (mem k ids) then Some k else None) = false).
  { destruct (mem k ids) eqn:Hm; [reflexivity|]. cbn.
    destruct (Z.eqb_spec k 0) as [->|Hnz]; [reflexivity|].
    apply mem_notIn in Hm. exfalso. apply Hm. apply Hall; [now left | exact Hnz]. }
  rewrite Hk. apply IH. intros; apply Hall; [now right | assumption].
Qed.

(** X2.  When the registry already agrees with the enumeration (every
    listed id is registered and every registered id other than 0 is listed),
    a reconciliation pass returns normally, changes nothing in the bridge
    and emits no event: no entity is created, none removed, no lock taken.
    This holds for both interpreters and whatever the state of the locks. *)
Theorem update_actors_agreeing_is_noop :
  forall (py : python) (E : list carla_actor) (s : bridge),
    agrees (map id E) (actors s) ->
    update_actors py E s = (Ok tt, s, []).
Proof.
  intros py E s [Hl Hz]. unfold update_actors.
  rewrite (bind_Ok _ _ s s tt []).
  - rewrite (bind_Ok get _ s s s [] eq_refl). cbn [app].
    rewrite remove_loop_noop; [reflexivity | auto].
  - apply add_new_actors_noop. intros h Hh. apply Hl. now apply in_map.
Qed.

Lemma update_actors_agreeing_is_noop_witness :
  update_actors Python3 [camera_handle; lidar_handle] two_sensors
  = (Ok tt, two_sensors, []).
Proof.
  apply (update_actors_agreeing_is_noop Python3 [camera_handle; lidar_handle]
           two_sensors).
  split.
  - intros k Hk. rewrite two_sensors_actors. exact Hk.
  - intros k Hk _. rewrite two_sensors_actors in Hk. exact Hk.
Defined.

(** X3.  In Python 2 reconciliation is idempotent: after a pass over an
    enumeration (update lock free, registry keyed by entity id), a second
    pass over the same enumeration, under either interpreter, returns
    normally, leaves the bridge as the first pass left it and emits no
    event. *)
Theorem update_actors_twice :
  forall (py : python) (E : list carla_actor) (s : bridge),
    update_locked s = false ->
    NoDup (dict_keys (actors s)) ->
    let '(_, s1, _) := update_actors Python2 E s in
    update_actors py E s1 = (Ok tt, s1, []).
Proof.
  intros py E s Hfree Hnd.
  pose proof (update_actors_Python2_keys E s Hfree Hnd) as Hkeys.
  destruct (update_actors Python2 E s) as [[r s1] t]. cbn in Hkeys.
  destruct Hkeys as (_ & Hl & Hz).
  apply update_actors_agreeing_is_noop. split; [exact Hl|].
  intros k Hk Hnz. now apply Hz.
Qed.

Lemma update_actors_twice_witness :
  let '(_, s1, _) := update_actors Python2 [lidar_handle; car_handle] two_sensors in
  update_actors Python3 [lidar_handle; car_handle] s1 = (Ok tt, s1, []).
Proof.
  apply (update_actors_twice Python3 [lidar_handle; car_handle] two_sensors).
  - reflexivity.
  - exact two_sensors_NoDup.
Defined.

(** *** Python 3: the first removal ends the pass *)

Lemma remove_loop_Python3_raises ids keys :
  forall s,
    (forall k, In k keys -> In k (dict_keys (actors s))) ->
    (exists k, In k keys /\ ~ In k ids /\ k <> 0) ->
    exists k,
      In k keys /\ ~ In k ids /\ k <> 0 /\
      remove_loop Python3 ids keys false s
      = (Raise dict_changed_size, set_actors (dict_del k (actors s)) s,
         [EvLogwarn (RemoveActor k); EvDelitem k]).
Proof.
  induction keys as [|k0 keys IH]; intros s Hin Hex.
  - destruct Hex as (k & [] & _).
  - assert (Hrest : forall k, In k keys -> In k (dict_keys (actors s)))
      by (intros; apply Hin; now right).
    cbn [remove_loop keys_is_view andb].
    destruct (mem k0 ids) eqn:Hmem; cbn [negb truthy].
    { destruct (IH s Hrest) as (k & Hk & Hn & Hz & Hrun).
      - destruct Hex as (k & [<-|Hk] & Hn & Hz); [|now exists k].
        apply mem_In in Hmem. contradiction.
      - exists k. repeat split; auto. now right. }
    destruct (Z.eqb_spec k0 0) as [->|Hnz]; cbn [negb].
    { destruct (IH s Hrest) as (k & Hk & Hn & Hz & Hrun).
      - destruct Hex as (k & [<-|Hk] & Hn & Hz); [congruence | now exists k].
      - exists k. repeat split; auto. now right. }
    exists k0. split; [now left|]. split; [now apply mem_notIn|]. split; [exact Hnz|].
    unfold bind at 1, logwarn at 1, emit at 1.
    unfold bind at 1, delitem at 1, bind at 1, get at 1.
    assert (Hk0 : dict_in k0 (actors s) = true) by (apply dict_in_In, Hin; now left).
    rewrite Hk0. unfold bind at 1, emit at 1, modify at 1. cbn [app].
    destruct keys; reflexivity.
Qed.

(** X4.  In Python 3, when the registry holds an id other than 0 that the
    enumeration does not list, the pass (update lock free) creates the
    missing entities, logs and deletes exactly one unlisted entry, and then
    ends with the RuntimeError of an iterator over a dictionary that changed
    size: the keys are iterated as a live view. *)
Theorem update_actors_Python3_removal_raises :
  forall (E : list carla_actor) (s : bridge),
    update_locked s = false ->
    (exists k, In k (dict_keys (actors s)) /\ ~ In k (map id E) /\ k <> 0) ->
    exists k s' pre,
      update_actors Python3 E s
      = (Raise dict_changed_size, s',
         pre ++ [EvLogwarn (RemoveActor k); EvDelitem k]) /\
      ~ In k (map id E) /\ k <> 0 /\
      Forall not_delitem pre /\
      (forall h, In h E -> In (id h) (dict_keys (actors s'))).
Proof.
  intros E s Hfree (k0 & Hk0 & Hn0 & Hz0).
  destruct (add_new_actors_run (handles E) E (incl_refl _) s
              (dict_keys (actors s)) Hfree (fun k H => H))
    as (s1 & t1 & Hrun & Hfree1 & _ & _ & Hall & Hgrow & _).
  destruct (remove_loop_Python3_raises (map id E) (dict_keys (actors s1)) s1
              (fun k H => H))
    as (k & Hk & Hn & Hz & Hrm).
  { exists k0. repeat split; auto. }
  exists k, (set_actors (dict_del k (actors s1)) s1), t1.
  split; [|split; [exact Hn | split; [exact Hz | split]]].
  - unfold update_actors.
    rewrite (bind_Ok _ _ _ _ _ _ Hrun).
    rewrite (bind_Ok get _ s1 s1 s1 [] eq_refl). cbn [app].
    now rewrite Hrm.
  - pose proof (add_new_actors_emits not_delitem
                  ltac:(intros x; discriminate) ltac:(intros x; discriminate)
                  ltac:(intros a x; discriminate) ltac:(intros w x; discriminate)
                  ltac:(intros x y; discriminate) E s) as Hem.
    now rewrite Hrun in Hem.
  - intros h Hh. cbn. apply dict_del_keys_other; [|now apply Hall].
    intros Heq. apply Hn. rewrite <- Heq. now apply in_map.
Qed.

Lemma update_actors_Python3_removal_raises_witness :
  exists k s' pre,
    update_actors Python3 [lidar_handle] two_sensors
    = (Raise dict_changed_size, s',
       pre ++ [EvLogwarn (RemoveActor k); EvDelitem k]) /\
    ~ In k (map id [lidar_handle]) /\ k <> 0 /\
    Forall not_delitem pre /\
    (forall h, In h [lidar_handle] -> In (id h) (dict_keys (actors s'))).
Proof.
  apply (update_actors_Python3_removal_raises [lidar_handle] two_sensors).
  - reflexivity.
  - exists 5. rewrite two_sensors_actors. simpl. split; [now left|].
    split; [intros [H|[]]; discriminate H | discriminate].
Defined.

(** *** The reconciliation callback *)

Lemma child_actors_closed py E s :
  is_shutdown (get_binding s) = true \/ update_child_actors_locked s = true ->
  _carla_update_child_actors py E s = (Ok tt, s, []).
Proof.
  intros H. unfold _carla_update_child_actors.
  rewrite (bind_Ok get _ s s s [] eq_refl).
  destruct (is_shutdown (get_binding s)) eqn:Hshut; [reflexivity|].
  destruct H as [H|H]; [discriminate|]. cbn [negb app].
  unfold bind, try_acquire. simpl. now rewrite H.
Qed.

Lemma child_actors_open py E s :
  is_shutdown (get_binding s) = false ->
  update_child_actors_locked s = false ->
  update_locked s = false ->
  _carla_update_child_actors py E s =
    match update_actors py E (set_locked update_child_actors_lock true s) with
    | (Ok _, s1, t) =>
        (Ok tt, set_locked update_child_actors_lock false s1,
         EvAcquire update_child_actors_lock :: t
         ++ [EvSleep; EvRelease update_child_actors_lock])
    | (Raise e, s1, t) => (Raise e, s1, EvAcquire update_child_actors_lock :: t)
    | (Blocked, s1, t) => (Blocked, s1, EvAcquire update_child_actors_lock :: t)
    end.
Proof.
  intros Hshut Hchild Hfree. unfold _carla_update_child_actors.
  rewrite (bind_Ok get _ s s s [] eq_refl). rewrite Hshut. cbn [negb app].
  rewrite (bind_Ok (try_acquire update_child_actors_lock) _ s
                   (set_locked update_child_actors_lock true s) true
                   [EvAcquire update_child_actors_lock])
    by (unfold try_acquire; simpl; now rewrite Hchild).
  cbv iota.
  pose proof (update_actors_same_frame py E
                (set_locked update_child_actors_lock true s) Hfree) as Hfr.
  destruct (update_actors py E (set_locked update_child_actors_lock true s))
    as [[[u|e|] s1] t] eqn:Hrun; cbn in Hfr.
  - rewrite (bind_Ok _ _ _ _ _ _ Hrun).
    destruct Hfr as (_ & _ & Hc & _). cbn in Hc.
    unfold bind, emit, release. simpl. rewrite Hc. reflexivity.
  - now rewrite (bind_Raise _ _ _ _ _ _ Hrun).
  - unfold bind. now rewrite Hrun.
Qed.

Lemma remove_loop_emits (P : event -> Prop) py ids keys :
  (forall w, P (EvLogwarn w)) -> (forall k, P (EvDelitem k)) ->
  forall changed, emits P (remove_loop py ids keys changed).
Proof.
  intros Hw Hd. induction keys as [|k keys IH]; intros changed; cbn [remove_loop].
  - destruct (keys_is_view py && changed); [apply emits_raise | apply emits_ret].
  - destruct (keys_is_view py && changed); [apply emits_raise|].
    destruct (truthy _); [|apply IH].
    apply emits_bind; [apply emits_emit; auto|]. intros _.
    apply emits_bind; [|intros; apply IH].
    unfold delitem. apply emits_bind; [apply emits_get|]. intros s.
    destruct (dict_in k (actors s)); [|apply emits_raise].
    apply emits_bind; [apply emits_emit; auto | intros; apply emits_modify].
Qed.

Lemma update_actors_emits (P : event -> Prop) py E :
  P (EvAcquire update_lock) -> P (EvRelease update_lock) ->
  (forall a, P (EvAppendPseudo a)) ->
  (forall w, P (EvLogwarn w)) -> (forall k, P (EvSetitem k)) ->
  (forall k, P (EvDelitem k)) ->
  emits P (update_actors py E).
Proof.
  intros Ha Hr Hp Hw Hs Hd. unfold update_actors.
  apply emits_bind; [now apply add_new_actors_emits|]. intros _.
  apply emits_bind; [apply emits_get|]. intros s. now apply remove_loop_emits.
Qed.

Lemma update_actors_reconciliation_events py E s :
  Forall reconciliation_event (snd (update_actors py E s)).
Proof. apply update_actors_emits; intros; exact I. Qed.

(** X5.  In Python 3, when the registry holds an id other than 0 that the
    enumeration does not list, the reconciliation callback (no shutdown,
    both locks free) ends with the RuntimeError of the removal loop and
    never reaches its sleep and release: the reconciliation lock stays held,
    and every later firing of the callback returns at once and does
    nothing. *)
Theorem child_actors_Python3_stops :
  forall (E : list carla_actor) (s : bridge),
    is_shutdown (get_binding s) = false ->
    update_child_actors_locked s = false ->
    update_locked s = false ->
    (exists k, In k (dict_keys (actors s)) /\ ~ In k (map id E) /\ k <> 0) ->
    exists s' t,
      _carla_update_child_actors Python3 E s
      = (Raise dict_changed_size, s', EvAcquire update_child_actors_lock :: t) /\
      update_child_actors_locked s' = true /\
      ~ In EvSleep t /\
      ~ In (EvRelease update_child_actors_lock) t /\
      forall py' E', _carla_update_child_actors py' E' s' = (Ok tt, s', []).
Proof.
  intros E s Hshut Hchild Hfree (k0 & Hk0 & Hn0 & Hz0).
  set (s0 := set_locked update_child_actors_lock true s).
  assert (Hfree0 : update_locked s0 = false) by exact Hfree.
  destruct (add_new_actors_run (handles E) E (incl_refl _) s0
              (dict_keys (actors s0)) Hfree0 (fun k H => H))
    as (s1 & t1 & Hrun & _ & _ & _ & _ & Hgrow & _).
  destruct (remove_loop_Python3_raises (map id E) (dict_keys (actors s1)) s1
              (fun k H => H))
    as (k & _ & _ & _ & Hrm).
  { exists k0. repeat split; auto. }
  assert (Hpass : update_actors Python3 E s0
                  = (Raise dict_changed_size, set_actors (dict_del k (actors s1)) s1,
                     t1 ++ [EvLogwarn (RemoveActor k); EvDelitem k])).
  { unfold update_actors.
    rewrite (bind_Ok _ _ _ _ _ _ Hrun).
    rewrite (bind_Ok get _ s1 s1 s1 [] eq_refl). cbn [app].
    now rewrite Hrm. }
  pose proof (update_actors_same_frame Python3 E s0 Hfree0) as Hfr.
  pose proof (update_actors_reconciliation_events Python3 E s0) as Hev.
  rewrite Hpass in Hfr, Hev. cbn in Hfr, Hev.
  destruct Hfr as (_ & _ & Hc & _).
  do 2 eexists. split; [|split; [exact Hc | split; [|split]]].
  - rewrite (child_actors_open Python3 E s Hshut Hchild Hfree).
    fold s0. rewrite Hpass. reflexivity.
  - intros H. rewrite Forall_forall in Hev. exact (Hev _ H).
  - intros H. rewrite Forall_forall in Hev. exact (Hev _ H).
  - intros py' E'. apply child_actors_closed. right. exact Hc.
Qed.

Lemma child_actors_Python3_stops_witness :
  exists s' t,
    _carla_update_child_actors Python3 [lidar_handle] two_sensors
    = (Raise dict_changed_size, s', EvAcquire update_child_actors_lock :: t) /\
    update_child_actors_locked s' = true /\
    ~ In EvSleep t /\
    ~ In (EvRelease update_child_actors_lock) t /\
    forall py' E', _carla_update_child_actors py' E' s' = (Ok tt, s', []).
Proof.
  apply (child_actors_Python3_stops [lidar_handle] two_sensors); try reflexivity.
  exists 5. rewrite two_sensors_actors. simpl. split; [now left|].
  split; [intros [H|[]]; discriminate H | discriminate].
Defined.

(** X6.  In Python 2 the reconciliation callback (no shutdown, both locks
    free, registry keyed by entity id) returns normally: it takes the
    reconciliation lock, runs the pass, sleeps once after the pass and gives
    the lock back.  Afterwards both locks are free and the registry agrees
    with the enumeration. *)
Theorem child_actors_Python2_completes :
  forall (E : list carla_actor) (s : bridge),
    is_shutdown (get_binding s) = false ->
    update_child_actors_locked s = false ->
    update_locked s = false ->
    NoDup (dict_keys (actors s)) ->
    exists s' t,
      _carla_update_child_actors Python2 E s
      = (Ok tt, s',
         EvAcquire update_child_actors_lock :: t
         ++ [EvSleep; EvRelease update_child_actors_lock]) /\
      Forall reconciliation_event t /\
      update_child_actors_locked s' = false /\
      update_locked s' = false /\
      agrees (map id E) (actors s').
Proof.
  intros E s Hshut Hchild Hfree Hnd.
  set (s0 := set_locked update_child_actors_lock true s).
  assert (Hfree0 : update_locked s0 = false) by exact Hfree.
  assert (Hnd0 : NoDup (dict_keys (actors s0))) by exact Hnd.
  pose proof (update_actors_Python2_keys E s0 Hfree0 Hnd0) as Hkeys.
  pose proof (update_actors_same_frame Python2 E s0 Hfree0) as Hfr.
  pose proof (update_actors_reconciliation_events Python2 E s0) as Hev.
  pose proof (child_actors_open Python2 E s Hshut Hchild Hfree) as Hopen.
  fold s0 in Hopen.
  destruct (update_actors Python2 E s0) as [[r s1] t]. cbn in Hkeys, Hfr, Hev.
  destruct Hkeys as (-> & Hl & Hz). destruct Hfr as (_ & _ & _ & Hu).
  exists (set_locked update_child_actors_lock false s1), t.
  split; [exact Hopen|]. split; [exact Hev|].
  split; [reflexivity|]. split; [cbn in Hu |- *; congruence|].
  split; [exact Hl | intros k Hk Hnz; now apply Hz].
Qed.

Lemma child_actors_Python2_completes_witness :
  exists s' t,
    _carla_update_child_actors Python2 [lidar_handle; car_handle] two_sensors
    = (Ok tt, s',
       EvAcquire update_child_actors_lock :: t
       ++ [EvSleep; EvRelease update_child_actors_lock]) /\
    Forall reconciliation_event t /\
    update_child_actors_locked s' = false /\
    update_locked s' = false /\
    agrees (map id [lidar_handle; car_handle]) (actors s').
Proof.
  apply (child_actors_Python2_completes [lidar_handle; car_handle] two_sensors);
    try reflexivity.
  exact two_sensors_NoDup.
Defined.

(** ** More on the factory *)

Lemma creates_registers h s a s' t :
  creates h s a s' t ->
  well_keyed (actors s) ->
  get_id a = id h /\
  parent_id a = option_map id (parent h) /\
  (forall p, parent h = Some p -> In (id p) (dict_keys (actors s'))) /\
  (forall k, In k (dict_keys (actors s)) -> In k (dict_keys (actors s'))).
Proof.
  intros Hc Hwk.
  destruct (creates_parents_first (chain h) _ _ _ _ _ Hc (incl_refl _)
              (dict_keys (actors s)) (fun k H => H)) as (_ & _ & _ & Hgrow).
  destruct Hc as [h s a s' t Hp F | h p pa s a s' t Hp Hget F
                 | h p pa s s1 t1 a s' t Hp Hget Hc F];
    apply finish_inv in F; destruct F as (-> & A & _).
  - rewrite Hp. repeat split; auto. intros p Hp'. discriminate.
  - rewrite Hp. repeat split; auto.
    + cbn. f_equal. apply Hwk. now apply dict_get_Some_pair.
    + intros p' Hp'. inversion Hp'; subst p'. apply Hgrow.
      eapply dict_get_Some_In; eauto.
  - rewrite Hp. destruct (creates_result _ _ _ _ _ Hc) as (_ & Hh & Hreg & _).
    repeat split; auto.
    + cbn. f_equal. unfold get_id. now rewrite Hh.
    + intros p' Hp'. inversion Hp'; subst p'. rewrite A.
      apply dict_set_keys. right. eapply dict_get_Some_In; eauto.
Qed.

(** X7.  With the update lock free and the registry keyed by entity id,
    [create_actor] returns an entity whose id is the handle's id and whose
    parent id is the id of the handle's parent; the registry then maps the
    handle's id to that entity, the parent's id is registered too, no
    earlier key is lost, and the registry is still keyed by entity id. *)
Theorem create_actor_registers :
  forall (h : carla_actor) (s : bridge),
    update_locked s = false ->
    well_keyed (actors s) ->
    exists a s' t,
      create_actor h s = (Ok a, s', t) /\
      get_id a = id h /\
      parent_id a = option_map id (parent h) /\
      dict_get (id h) (actors s') = Some a /\
      (forall p, parent h = Some p -> In (id p) (dict_keys (actors s'))) /\
      (forall k, In k (dict_keys (actors s)) -> In k (dict_keys (actors s'))) /\
      well_keyed (actors s').
Proof.
  intros h s Hfree Hwk.
  destruct (create_actor_creates h s Hfree) as (a & s' & t & Hrun & Hc).
  destruct (creates_registers _ _ _ _ _ Hc Hwk) as (Hid & Hpid & Hpar & Hgrow).
  destruct (creates_result _ _ _ _ _ Hc) as (_ & _ & Hreg & _).
  exists a, s', t. repeat split; auto.
  eapply creates_well_keyed; eauto.
Qed.

Lemma create_actor_registers_witness :
  exists a s' t,
    create_actor ego_camera_handle two_sensors = (Ok a, s', t) /\
    get_id a = id ego_camera_handle /\
    parent_id a = option_map id (parent ego_camera_handle) /\
    dict_get (id ego_camera_handle) (actors s') = Some a /\
    (forall p, parent ego_camera_handle = Some p ->
               In (id p) (dict_keys (actors s'))) /\
    (forall k, In k (dict_keys (actors two_sensors)) ->
               In k (dict_keys (actors s'))) /\
    well_keyed (actors s').
Proof.
  apply (create_actor_registers ego_camera_handle two_sensors).
  - reflexivity.
  - intros k a Hin. rewrite two_sensors_actors in Hin.
    destruct Hin as [E|[E|[]]]; inversion E; reflexivity.
Defined.

Lemma bind_Blocked {A B : Type} (m : M A) (k : A -> M B) (s s1 : bridge)
      (t1 : list event) :
  m s = (Blocked, s1, t1) -> bind m k s = (Blocked, s1, t1).
Proof. intros H. unfold bind. now rewrite H. Qed.

Lemma with_lock_held {A : Type} (body : M A) (s : bridge) :
  update_locked s = true -> with_lock update_lock body s = (Blocked, s, []).
Proof. intros H. unfold with_lock, acquire. simpl. now rewrite H. Qed.

Lemma construct_held h p s :
  update_locked s = true ->
  construct h p s = (Blocked, s, []) \/ exists a, construct h p s = (Ok a, s, []).
Proof.
  intros Hheld. unfold construct.
  rewrite (bind_Ok get _ s s s [] eq_refl). cbn [app].
  repeat match goal with
         | |- context [if ?c then _ else _] => destruct c
         end;
    try (right; eexists; reflexivity).
  left. rewrite (bind_Blocked _ _ s s []); [reflexivity|].
  now apply with_lock_held.
Qed.

Lemma register_held h a s :
  update_locked s = true ->
  register h a s = (Blocked, s, [created_warning h a]).
Proof.
  intros Hheld. unfold register.
  rewrite (bind_Ok (logwarn _) _ s s tt [created_warning h a]) by reflexivity.
  rewrite (bind_Blocked _ _ s s []); [reflexivity|].
  now apply with_lock_held.
Qed.

(** X8.  While the update lock is held, [create_actor] cannot finish: it
    waits for the lock, having stored nothing and appended no publisher.
    The bridge is unchanged and the only events are warnings ("Created
    Actor ..." is logged before the entity is stored). *)
Theorem create_actor_waits_for_update_lock :
  forall (h : carla_actor) (s : bridge),
    update_locked s = true ->
    exists t, create_actor h s = (Blocked, s, t) /\ Forall is_warning t.
Proof.
  induction h as [h IH] using carla_actor_parent_ind. intros s Hheld.
  rewrite create_actor_eq.
  assert (Htail : forall parent_,
             exists t, (actor_ <- construct h parent_ ;; register h actor_) s
                       = (Blocked, s, t) /\ Forall is_warning t).
  { intros parent_. destruct (construct_held h parent_ s Hheld) as [Hb|[a Ha]].
    - exists []. split; [now apply bind_Blocked | constructor].
    - exists [created_warning h a]. split.
      + rewrite (bind_Ok _ _ _ _ _ _ Ha). now rewrite register_held.
      + repeat constructor. }
  destruct (parent h) as [p|] eqn:Hp.
  - destruct (dict_get (id p) (actors s)) as [pa|] eqn:Hget.
    + destruct (Htail (Some pa)) as (t & Hrun & Ht). exists t. split; [|exact Ht].
      rewrite (bind_Ok _ _ s s (Some pa) []); [now rewrite Hrun|].
      rewrite (bind_Ok get _ s s s [] eq_refl). now rewrite Hget.
    + destruct (IH p eq_refl s Hheld) as (t & Hrun & Ht). exists t. split; [|exact Ht].
      apply bind_Blocked.
      rewrite (bind_Ok get _ s s s [] eq_refl). rewrite Hget. cbn [app].
      now rewrite (bind_Blocked _ _ _ _ _ Hrun).
  - destruct (Htail None) as (t & Hrun & Ht). exists t. split; [|exact Ht].
    rewrite (bind_Ok _ _ s s None []); [now rewrite Hrun | reflexivity].
Qed.

Lemma create_actor_waits_for_update_lock_witness :
  exists t,
    create_actor ego_camera_handle (set_locked update_lock true two_sensors)
    = (Blocked, set_locked update_lock true two_sensors, t)
    /\ Forall is_warning t.
Proof.
  apply (create_actor_waits_for_update_lock ego_camera_handle
           (set_locked update_lock true two_sensors)).
  reflexivity.
Defined.

(** *** The pseudo-entity list only grows *)

Lemma is_ego_variant names h :
  is_ego names h = true -> variant_of names h = EgoVehicle.
Proof.
  unfold is_ego, variant_of.
  destruct (startswith (type_id h) "traffic"); [discriminate|].
  destruct (startswith (type_id h) "vehicle"); [|discriminate].
  destruct (role_in _ _); [reflexivity | discriminate].
Qed.

Lemma creates_publishers h s a s' t :
  creates h s a s' t ->
  exists l, pseudo_actors s' = pseudo_actors s ++ l /\ Forall is_publisher l.
Proof.
  assert (Hfin : forall h p s a s' t,
             finish h p s = (a, s', t) ->
             exists l, pseudo_actors s' = pseudo_actors s ++ l /\ Forall is_publisher l).
  { clear. intros h p s a s' t F. apply finish_inv in F.
    destruct F as (-> & _ & P & _). eexists. split; [exact P|].
    destruct (is_ego (ego_names s) h) eqn:He; [|constructor].
    repeat constructor. cbn. now apply is_ego_variant. }
  induction 1 as [h s a s' t _ F | h p pa s a s' t _ _ F
                 | h p pa s s1 t1 a s' t _ _ _ IH F].
  - eapply Hfin; eauto.
  - eapply Hfin; eauto.
  - destruct IH as (l1 & E1 & F1). destruct (Hfin _ _ _ _ _ _ F) as (l2 & E2 & F2).
    exists (l1 ++ l2). split; [now rewrite E2, E1, app_assoc | now apply Forall_app].
Qed.

(** X9.  A reconciliation pass (update lock free) never removes or reorders
    pseudo-entities: the list afterwards is the list before followed by
    object-list publishers of ego vehicles, each filtered on its vehicle's
    id.  Removing a vehicle from the registry leaves its publisher in the
    list. *)
Theorem update_actors_appends_publishers :
  forall (py : python) (E : list carla_actor) (s : bridge),
    update_locked s = false ->
    exists l,
      pseudo_actors (snd (fst (update_actors py E s))) = pseudo_actors s ++ l /\
      Forall is_publisher l.
Proof.
  intros py E s Hfree.
  apply (update_actors_invariant
           (fun b => exists l, pseudo_actors b = pseudo_actors s ++ l
                               /\ Forall is_publisher l));
    [| |exact Hfree|].
  - intros h s0 a s' t Hc (l0 & E0 & F0).
    destruct (creates_publishers _ _ _ _ _ Hc) as (l1 & E1 & F1).
    exists (l0 ++ l1). split; [now rewrite E1, E0, app_assoc | now apply Forall_app].
  - intros k s0 H. exact H.
  - exists []. split; [now rewrite app_nil_r | constructor].
Qed.

Lemma update_actors_appends_publishers_witness :
  exists l,
    pseudo_actors (snd (fst (update_actors Python2 [hero] fresh_bridge)))
    = pseudo_actors fresh_bridge ++ l /\
    Forall is_publisher l.
Proof.
  apply (update_actors_appends_publishers Python2 [hero] fresh_bridge).
  reflexivity.
Defined.

(** ** More on the update tick *)

Lemma tick_shutdown raises t s :
  is_shutdown (get_binding s) = true ->
  _carla_time_tick raises t s = (Ok tt, s, []).
Proof.
  intros Hshut. rewrite tick_eq.
  rewrite (bind_Ok get _ s s s [] eq_refl). now rewrite Hshut.
Qed.

Lemma tick_locked raises t s :
  update_locked s = true ->
  _carla_time_tick raises t s = (Ok tt, s, []).
Proof.
  intros Hl. destruct (is_shutdown (get_binding s)) eqn:Hshut;
    [now apply tick_shutdown|].
  rewrite tick_eq. rewrite (bind_Ok get _ s s s [] eq_refl). rewrite Hshut.
  cbn [negb app]. unfold bind, try_acquire. simpl. now rewrite Hl.
Qed.



(** ** Shutdown *)

Lemma fire_all_closed (cs : list callback) (s : bridge) :
  update_locked s = true ->
  update_child_actors_locked s = true ->
  fire_all cs s = (map (fun _ => Ok tt) cs, s, []).
Proof.
  intros Hu Hc. induction cs as [|c cs IH]; [reflexivity|].
  cbn [fire_all]. destruct c as [raises t|py E]; cbn [fire].
  - rewrite (tick_locked raises t s Hu), IH. reflexivity.
  - rewrite (child_actors_closed py E s (or_intror Hc)), IH. reflexivity.
Qed.

Lemma on_shutdown_held (s : bridge) :
  update_locked s = true \/ update_child_actors_locked s = true ->
  exists s' t,
    on_shutdown s = (Blocked, s', t) /\
    ~ In EvSignalShutdown t /\
    get_binding s' = get_binding s /\
    actors s' = actors s.
Proof.
  intros H. unfold on_shutdown, destroy, bind, loginfo, emit, acquire. simpl.
  destruct (update_child_actors_locked s) eqn:Hc.
  - do 2 eexists. split; [reflexivity|]. split; [|split; reflexivity].
    intros [E|[]]; discriminate E.
  - destruct H as [H|H]; [|discriminate]. simpl. rewrite H.
    do 2 eexists. split; [reflexivity|]. split; [|split; reflexivity].
    intros [E|[E|[]]]; discriminate E.
Qed.

(** X12.  Shutdown from a bridge with both locks free: [on_shutdown] logs,
    takes the reconciliation lock and then the update lock, signals the
    binding and logs again; it releases neither lock and leaves the registry
    and the pseudo-entity list as they are.  From then on every firing of
    either tick callback, in any sequence, returns normally at once,
    changing nothing and emitting nothing: the locks alone see to that,
    whatever the binding's shutdown flag says. *)
Theorem on_shutdown_drains :
  forall s : bridge,
    update_child_actors_locked s = false ->
    update_locked s = false ->
    exists s',
      on_shutdown s
      = (Ok tt, s',
         [EvLoginfo "Shutdown requested";
          EvAcquire update_child_actors_lock; EvAcquire update_lock;
          EvSignalShutdown; EvLoginfo "Exiting Bridge"]) /\
      update_child_actors_locked s' = true /\
      update_locked s' = true /\
      actors s' = actors s /\
      pseudo_actors s' = pseudo_actors s /\
      forall cs, fire_all cs s' = (map (fun _ => Ok tt) cs, s', []).
Proof.
  intros s Hc Hu.
  exists (set_shutdown (set_locked update_lock true
                          (set_locked update_child_actors_lock true s))).
  split; [|repeat split].
  - unfold on_shutdown, destroy, bind, loginfo, emit, acquire, modify. simpl.
    rewrite Hc. simpl. rewrite Hu. reflexivity.
  - intros cs. now apply fire_all_closed.
Qed.

Lemma on_shutdown_drains_witness :
  exists s',
    on_shutdown two_sensors
    = (Ok tt, s',
       [EvLoginfo "Shutdown requested";
        EvAcquire update_child_actors_lock; EvAcquire update_lock;
        EvSignalShutdown; EvLoginfo "Exiting Bridge"]) /\
    update_child_actors_locked s' = true /\
    update_locked s' = true /\
    actors s' = actors two_sensors /\
    pseudo_actors s' = pseudo_actors two_sensors /\
    forall cs, fire_all cs s' = (map (fun _ => Ok tt) cs, s', []).
Proof. apply (on_shutdown_drains two_sensors); reflexivity. Defined.

(** X13.  Called while the update lock or the reconciliation lock is held,
    [on_shutdown] logs and then waits at an [acquire]: at the first one when
    the reconciliation lock is held, otherwise after taking the
    reconciliation lock, at the second.  Up to that point
    [signal_shutdown] has not been called and the shutdown flag and the
    registry are unchanged.  This is the case for a second [on_shutdown]
    after a first one, which keeps both locks. *)
Theorem on_shutdown_waits :
  forall s : bridge,
    update_locked s = true \/ update_child_actors_locked s = true ->
    exists s' t,
      on_shutdown s = (Blocked, s', t) /\
      ~ In EvSignalShutdown t /\
      get_binding s' = get_binding s /\
      actors s' = actors s /\
      if update_child_actors_locked s
      then s' = s /\ t = [EvLoginfo "Shutdown requested"]
      else s' = set_locked update_child_actors_lock true s /\
           t = [EvLoginfo "Shutdown requested"; EvAcquire update_child_actors_lock].
Proof.
  intros s H. unfold on_shutdown, destroy, bind, loginfo, emit, acquire. simpl.
  destruct (update_child_actors_locked s) eqn:Hc.
  - do 2 eexists. split; [reflexivity|]. split; [|repeat split].
    intros [E|[]]; discriminate E.
  - destruct H as [H|H]; [|discriminate]. simpl. rewrite H.
    do 2 eexists. split; [reflexivity|]. split; [|repeat split].
    intros [E|[E|[]]]; discriminate E.
Qed.

Lemma on_shutdown_waits_witness :
  exists s' t,
    on_shutdown (snd (fst (on_shutdown two_sensors))) = (Blocked, s', t) /\
    ~ In EvSignalShutdown t /\
    get_binding s' = get_binding (snd (fst (on_shutdown two_sensors))) /\
    actors s' = actors (snd (fst (on_shutdown two_sensors))) /\
    s' = snd (fst (on_shutdown two_sensors)) /\
    t = [EvLoginfo "Shutdown requested"].
Proof.
  destruct (on_shutdown_waits (snd (fst (on_shutdown two_sensors))))
    as (s' & t & Hrun & Hno & Hb & Ha & Hw); [left; reflexivity|].
  exists s', t. repeat split; try assumption; apply Hw.
Defined.

Lemma tick_Raise_ticking raises t s e s1 tr :
  _carla_time_tick raises t s = (Raise e, s1, tr) -> s1 = ticking t s.
Proof.
  intros H.
  destruct (is_shutdown (get_binding s)) eqn:Hshut.
  { rewrite tick_shutdown in H by exact Hshut. discriminate. }
  destruct (update_locked s) eqn:Hl.
  { rewrite tick_locked in H by exact Hl. discriminate. }
  rewrite (tick_open raises t s Hshut Hl) in H.
  destruct (Qltb (timestamp_last_run s) t); [|discriminate].
  destruct (pass raises t (ticking t s)) as [[[u|e'|] s2] tr2];
    inversion H; reflexivity.
Qed.

(** X14.  A tick that ends with an error disables the bridge: the update
    lock is left held with the tick's timestamp recorded, so every later
    tick, whatever its timestamp, returns at once without updating the
    clock, any entity, or flushing, and a shutdown request waits for the
    lock without signalling the binding. *)
Theorem tick_error_disables_bridge :
  forall (raises : call -> option exn) (t : Q) (s s1 : bridge) (e : exn)
         (tr : list event),
    _carla_time_tick raises t s = (Raise e, s1, tr) ->
    update_locked s1 = true /\
    timestamp_last_run s1 = t /\
    (forall raises' t', _carla_time_tick raises' t' s1 = (Ok tt, s1, [])) /\
    exists s2 t2,
      on_shutdown s1 = (Blocked, s2, t2) /\ ~ In EvSignalShutdown t2.
Proof.
  intros raises t s s1 e tr H.
  apply tick_Raise_ticking in H. subst s1.
  split; [reflexivity|]. split; [reflexivity|]. split.
  - intros raises' t'. now apply tick_locked.
  - destruct (on_shutdown_held (ticking t s) (or_introl eq_refl))
      as (s2 & t2 & Hrun & Hns & _).
    now exists s2, t2.
Qed.

Lemma tick_error_disables_bridge_witness :
  let s1 := snd (fst (_carla_time_tick map_fails 1 two_sensors)) in
  update_locked s1 = true /\
  timestamp_last_run s1 = 1%Q /\
  (forall raises' t', _carla_time_tick raises' t' s1 = (Ok tt, s1, [])) /\
  exists s2 t2,
    on_shutdown s1 = (Blocked, s2, t2) /\ ~ In EvSignalShutdown t2.
Proof.
  apply (tick_error_disables_bridge map_fails 1 two_sensors _
           (Exn RuntimeError "no map")
           [EvAcquire update_lock; EvCall (update_clock 1);
            EvCall (pseudo_update (Map "/map"))]).
  reflexivity.
Defined.

(** ** The ego vehicle's publisher, in full *)

(** The relation [creates] describes runs of the code. *)
Lemma creates_sound h s a s' t :
  creates h s a s' t ->
  update_locked s = false ->
  create_actor h s = (Ok a, s', t).
Proof.
  induction 1 as [h s a s' t Hp F | h p pa s a s' t Hp Hget F
                 | h p pa s s1 t1 a s' t Hp Hget Hc IH F]; intros Hfree;
    rewrite create_actor_eq, Hp.
  - rewrite (bind_Ok _ _ s s None [] eq_refl).
    rewrite (construct_register_unlocked h None s Hfree), F. reflexivity.
  - rewrite (bind_Ok _ _ s s (Some pa) []).
    + rewrite (construct_register_unlocked h (Some pa) s Hfree), F. reflexivity.
    + rewrite (bind_Ok get _ s s s [] eq_refl). now rewrite Hget.
  - assert (Hfree1 : update_locked s1 = false)
      by (rewrite (creates_update_locked _ _ _ _ _ Hc); exact Hfree).
    rewrite (bind_Ok _ _ s s1 (Some pa) t1).
    + rewrite (construct_register_unlocked h (Some pa) s1 Hfree1), F. reflexivity.
    + rewrite (bind_Ok get _ s s s [] eq_refl). rewrite Hget. cbn [app].
      rewrite (bind_Ok _ _ _ _ _ _ (IH Hfree)). unfold ret. now rewrite app_nil_r.
Qed.

(** Every publisher a call of the factory appends belongs to an ego vehicle
    of the handle's chain. *)
Lemma creates_chain_publishers h s a s' t :
  creates h s a s' t ->
  exists l,
    pseudo_actors s' = pseudo_actors s ++ l /\
    Forall (chain_publisher (ego_names s) h) l.
Proof.
  assert (Hfin : forall h p s a s' t,
             finish h p s = (a, s', t) ->
             exists l,
               pseudo_actors s' = pseudo_actors s ++ l /\
               Forall (chain_publisher (ego_names s) h) l).
  { clear. intros h p s a s' t F. apply finish_inv in F.
    destruct F as (Ha & _ & P & _). subst a.
    eexists. split; [exact P|].
    destruct (is_ego (ego_names s) h) eqn:He; [|constructor].
    repeat constructor.
    exists h, (new_actor (variant_of (ego_names s) h) h p).
    split; [apply chain_self|]. split; [exact He|].
    split; [cbn; now apply is_ego_variant|]. now split. }
  induction 1 as [h s a s' t Hp F | h p pa s a s' t Hp Hget F
                 | h p pa s s1 t1 a s' t Hp Hget Hc IH F].
  - eapply Hfin; eauto.
  - eapply Hfin; eauto.
  - destruct IH as (l1 & E1 & F1).
    pose proof (creates_ego_names _ _ _ _ _ Hc) as En.
    destruct (Hfin _ _ _ _ _ _ F) as (l2 & E2 & F2). rewrite En in F2.
    exists (l1 ++ l2). split; [now rewrite E2, E1, app_assoc|].
    apply Forall_app. split; [|exact F2].
    eapply Forall_impl; [|exact F1]. intros q (anc & a' & Hin & Hrest).
    exists anc, a'. split; [|exact Hrest]. eapply chain_parent; eauto.
Qed.

(** C8 (amended).  For a handle whose tag starts with [vehicle], called with
    the update lock free: if the role name is one of the configured ego role
    names, [create_actor] returns an [EgoVehicle] and the last publisher it
    appends is the object-list publisher filtered on that vehicle's id;
    otherwise it returns a [Vehicle] and appends none of its own.  What is
    appended before ([mid]) is exactly what creating the missing parent
    appends, and each of those is the publisher of an ego vehicle among the
    handle's ancestors; there are none when the parent is absent or already
    registered. *)
Theorem create_actor_vehicle :
  forall h s,
    update_locked s = false ->
    startswith (type_id h) "vehicle" = true ->
    exists a s' t mid,
      create_actor h s = (Ok a, s', t) /\
      appended_for_parent h s mid /\
      Forall (ancestor_publisher (ego_names s) h) mid /\
      (parent_resolved h s = true -> mid = []) /\
      if role_in (attr_get "role_name" (attributes h)) (ego_names s)
      then class_name a = EgoVehicle /\
           pseudo_actors s' =
             pseudo_actors s ++ mid ++ [ObjectSensor (Some a) "objects" (Some (id h))]
      else class_name a = Vehicle /\
           pseudo_actors s' = pseudo_actors s ++ mid.
Proof.
  intros h s Hfree Hv.
  destruct (create_actor_creates h s Hfree) as (a & s' & t & Hrun & Hc).
  destruct (variant_of_vehicle (ego_names s) h Hv) as [Hvar Hego].
  assert (Hown : forall p0 s0 t0,
             ego_names s0 = ego_names s ->
             finish h p0 s0 = (a, s', t0) ->
             if role_in (attr_get "role_name" (attributes h)) (ego_names s)
             then class_name a = EgoVehicle /\
                  pseudo_actors s' =
                    pseudo_actors s0 ++ [ObjectSensor (Some a) "objects" (Some (id h))]
             else class_name a = Vehicle /\ pseudo_actors s' = pseudo_actors s0).
  { intros p0 s0 t0 En F. apply finish_inv in F. destruct F as (Ha & _ & P & _).
    rewrite En, Hego in P. rewrite En, Hvar in Ha.
    destruct (role_in _ _); subst a; (split; [reflexivity|]);
      [exact P | now rewrite app_nil_r in P]. }
  exists a, s', t.
  destruct Hc as [h s a s' t Hp F | h p pa s a s' t Hp Hget F
                 | h p pa s s1 t1 a s' t Hp Hget Hc F].
  - exists []. unfold appended_for_parent, parent_resolved. rewrite Hp.
    split; [exact Hrun|]. split; [reflexivity|]. split; [constructor|].
    split; [reflexivity|].
    pose proof (Hown None s _ eq_refl F) as H.
    destruct (role_in _ _); destruct H as [H1 H2];
      (split; [exact H1|]); [exact H2 | now rewrite app_nil_r].
  - exists []. unfold appended_for_parent, parent_resolved, dict_in.
    rewrite Hp, Hget.
    split; [exact Hrun|]. split; [reflexivity|]. split; [constructor|].
    split; [reflexivity|].
    pose proof (Hown (Some pa) s _ eq_refl F) as H.
    destruct (role_in _ _); destruct H as [H1 H2];
      (split; [exact H1|]); [exact H2 | now rewrite app_nil_r].
  - destruct (creates_chain_publishers _ _ _ _ _ Hc) as (mid & Emid & Fmid).
    exists mid. unfold appended_for_parent, parent_resolved, dict_in.
    rewrite Hp, Hget.
    split; [exact Hrun|]. split.
    { exists pa, s1, t1. split; [now apply creates_sound | exact Emid]. }
    split.
    { eapply Forall_impl; [|exact Fmid]. intros q Hq. now exists p. }
    split; [discriminate|].
    pose proof (Hown (Some pa) s1 _ (creates_ego_names _ _ _ _ _ Hc) F) as H.
    rewrite Emid in H. destruct (role_in _ _); destruct H as [H1 H2];
      (split; [exact H1|]); [now rewrite <- app_assoc in H2 | exact H2].
Qed.

Lemma create_actor_vehicle_witness :
  exists a s' t mid,
    create_actor towed_ego fresh_bridge = (Ok a, s', t) /\
    appended_for_parent towed_ego fresh_bridge mid /\
    Forall (ancestor_publisher (ego_names fresh_bridge) towed_ego) mid /\
    (parent_resolved towed_ego fresh_bridge = true -> mid = []) /\
    if role_in (attr_get "role_name" (attributes towed_ego)) (ego_names fresh_bridge)
    then class_name a = EgoVehicle /\
         pseudo_actors s' =
           pseudo_actors fresh_bridge ++ mid
           ++ [ObjectSensor (Some a) "objects" (Some (id towed_ego))]
    else class_name a = Vehicle /\
         pseudo_actors s' = pseudo_actors fresh_bridge ++ mid.
Proof.
  apply (create_actor_vehicle towed_ego fresh_bridge); reflexivity.
Defined.
